(** * httpfly: a shallow embedding of the request router

    The repository holds two variants of one package:
    - [src/httpfly.go], the adaptive variant: every route has a handling
      mode (Sync or Async) and the dispatcher keeps process-wide latency
      counters from which it promotes Sync routes to Async;
    - [src/unnamed/part_000], the plain variant: no modes, the handler is
      always run inline and reaches the response writer through the
      request context.

    The path scanner [paramExtractAlg] and the matcher [extractParams] are
    the same text in both files and are embedded once.  Each variant's
    [handle] is embedded in a module of its own ([Adaptive], [Plain]).

    Conventions of the embedding.
    - A Go [string] and a [[]byte] are a [string] of the Standard Library (a
      sequence of 8-bit characters).  The source's [paramExtractAlg] ranges
      over the runes of its input and rebuilds strings from runes:
      [paramExtractAlg_runes] is that scan, with the UTF-8 decoding of the
      range loop and the encoding of the string conversion written out.
      [paramExtractAlg] is the same scan taken byte by byte; the two are
      proved equal on well-formed UTF-8 text, and they differ on ill-formed
      text only in the bytes of a token (an ill-formed byte comes back as
      U+FFFD), never in the number of tokens.
    - An [int64] is a [Z] with the wrap-around written out ([wrap64]).
    - Package-level variables are the fields of a record [Globals] that
      [handle] receives and returns.
    - What the dispatcher does to its surroundings is returned as a list of
      [Event]s in program order: its own calls on the response writer, the
      middleware calls, and the handler call or goroutine launch, each with
      the request context as it was at that moment.
    - Requests are served one at a time; the two mutexes of the adaptive
      variant are therefore not represented. *)

From Stdlib Require Import ZArith String Ascii List Lia Bool.
From stdpp Require Import base gmap list strings.
Import ListNotations.
Open Scope string_scope.
Open Scope list_scope.
Open Scope Z_scope.

(** ** 64-bit signed integers *)

Definition wrap64 (z : Z) : Z := (z + 2 ^ 63) mod 2 ^ 64 - 2 ^ 63.

(** Go's [/] on [int64]: truncation toward zero, a run-time panic on a zero
    divisor ([None]), and wrap-around for [MinInt64 / -1]. *)
Definition div64 (a b : Z) : option Z :=
  if b =? 0 then None else Some (wrap64 (a ÷ b)).

(** ** The part of net/http and io the dispatcher touches *)

Module http.

Definition StatusNotFound : Z := 404.
Definition StatusBadRequest : Z := 400.
Definition StatusOK : Z := 200.

(** [http.Request]: the three things [handle] reads. *)
Record Request := {
  Method : string;
  URL_Path : string;
  Body : string
}.

(** [http.ResponseWriter]: the status line once it has been fixed, and the
    body bytes written so far. *)
Record ResponseWriter := {
  status : option Z;
  written : string
}.

(** The writer the server hands to [handle] for a new request. *)
Definition fresh : ResponseWriter := {| status := None; written := "" |}.

(** The first [WriteHeader] fixes the status; later ones are ignored. *)
Definition WriteHeader (code : Z) (w : ResponseWriter) : ResponseWriter :=
  match status w with
  | None => {| status := Some code; written := written w |}
  | Some _ => w
  end.

(** [Write] sends the bytes, after an implicit [WriteHeader(200)] when no
    status has been fixed. *)
Definition Write (b : string) (w : ResponseWriter) : ResponseWriter :=
  {| status := Some (default StatusOK (status w));
     written := written w +:+ b |}.

End http.

(** [io.Reader.Read(p)]: copies at most [len(p)] bytes from the front of
    the stream into the front of [p]; returns the buffer and what is left
    of the stream. *)
Definition Read (stream p : string) : string * string :=
  let n := Nat.min (String.length p) (String.length stream) in
  (substring 0 n stream +:+ substring n (String.length p - n) p,
   substring n (String.length stream - n) stream).

(** ** Declarations shared by the two variants *)

Definition RequestMethod := string.
Definition get : RequestMethod := "GET".
Definition post : RequestMethod := "POST".
Definition put : RequestMethod := "PUT".
Definition delete : RequestMethod := "DELETE".

Definition AuthRequire := bool.
Definition UseAuth : AuthRequire := true.
Definition NoAuth : AuthRequire := false.

(** [type Parameters map[string][]byte] *)
Abbreviation Parameters := (gmap string string).

(** ** The path scanner *)

(** The [for _, c := range input] loop of [paramExtractAlg], with its two
    local variables as accumulators. *)
Fixpoint paramExtractAlg_loop (input : string) (res : list string)
    (buildStr : string) : list string :=
  match input with
  | EmptyString => res
  | String c rest =>
      if Ascii.eqb c "{" then paramExtractAlg_loop rest res ""
      else if Ascii.eqb c "}" then
        paramExtractAlg_loop rest (res ++ [buildStr]) buildStr
      else paramExtractAlg_loop rest res (buildStr +:+ String c "")
  end.

Definition paramExtractAlg (input : string) : list string :=
  paramExtractAlg_loop input [] "".

(** ** The matcher *)

Definition invalid_URL_params : string := "invalid URL params".

(** The loop [for i := 0; i < len(p); i++ { result[lp[i]] = []byte(p[i]) }],
    entered only when the two slices have the same length. *)
Fixpoint bind_params (lp p : list string) (result : Parameters) : Parameters :=
  match lp, p with
  | name :: lp', value :: p' => bind_params lp' p' (<[name := value]> result)
  | _, _ => result
  end.

(** Go returns the pair [(map, error)]; a nil map is the empty map and a
    nil error is [None]. *)
Definition extractParams (path locPath : string) : Parameters * option string :=
  let p := paramExtractAlg path in
  let lp := paramExtractAlg locPath in
  if negb (Nat.eqb (length p) (length lp)) then (∅, Some invalid_URL_params)
  else (bind_params lp p ∅, None).

(** ** The adaptive variant ([src/httpfly.go]) *)

Module Adaptive.

(** [type HandlingMode bool] *)
Definition HandlingMode := bool.
Definition Sync : HandlingMode := false.
Definition Async : HandlingMode := true.

Record RequestBody := {
  JsonData : string;
  Params : Parameters;
  Claims : gmap string string
}.

(** A handler receives the pointer to the context and nothing else: what
    it does is a change of the context. *)
Definition Handler := RequestBody -> RequestBody.

(** A middleware receives the pointer to the context, the writer and the
    request: it may change the context and write to the response. *)
Definition MiddlewareFunc :=
  RequestBody -> http.ResponseWriter -> http.Request ->
  RequestBody * http.ResponseWriter.

Record RouteInfo := {
  Mode : HandlingMode;
  Endpoint : string;
  Method : RequestMethod;
  AuthRequired : bool;
  HandlerF : Handler
}.

(** The package-level variables. *)
Record Globals := {
  RoutePrefix : string;
  middlewares : list MiddlewareFunc;
  routes : list RouteInfo;
  avarageResMs : Z;
  totalRequest : Z;
  resetAt : Z;
  startOptimizeAt : Z
}.

(** The variables as their declarations initialise them. *)
Definition init : Globals := {|
  RoutePrefix := "/api";
  middlewares := [];
  routes := [];
  avarageResMs := 0;
  totalRequest := 0;
  resetAt := 9223372036054775807;
  startOptimizeAt := 1000
|}.

Definition set_routes (rs : list RouteInfo) (g : Globals) : Globals :=
  {| RoutePrefix := RoutePrefix g; middlewares := middlewares g;
     routes := rs;
     avarageResMs := avarageResMs g; totalRequest := totalRequest g;
     resetAt := resetAt g; startOptimizeAt := startOptimizeAt g |}.

Definition set_counters (avg total : Z) (g : Globals) : Globals :=
  {| RoutePrefix := RoutePrefix g; middlewares := middlewares g;
     routes := routes g;
     avarageResMs := avg; totalRequest := total;
     resetAt := resetAt g; startOptimizeAt := startOptimizeAt g |}.

Definition AddMiddleware (f : MiddlewareFunc) (g : Globals) : Globals :=
  {| RoutePrefix := RoutePrefix g; middlewares := middlewares g ++ [f];
     routes := routes g;
     avarageResMs := avarageResMs g; totalRequest := totalRequest g;
     resetAt := resetAt g; startOptimizeAt := startOptimizeAt g |}.

Definition SetOptimizationThreshold (threshold : Z) (g : Globals) : Globals :=
  {| RoutePrefix := RoutePrefix g; middlewares := middlewares g;
     routes := routes g;
     avarageResMs := avarageResMs g; totalRequest := totalRequest g;
     resetAt := resetAt g; startOptimizeAt := threshold |}.

Definition map_route (m : RequestMethod) (mode : HandlingMode) (path : string)
    (auth : AuthRequire) (f : Handler) (g : Globals) : Globals :=
  set_routes
    (routes g ++
       [{| Mode := mode; Endpoint := RoutePrefix g +:+ path; Method := m;
           AuthRequired := auth; HandlerF := f |}]) g.

Definition MapGet := map_route get.
Definition MapPost := map_route post.
Definition MapPut := map_route put.
Definition MapDelete := map_route delete.

(** [v.Mode = Async] for the route at index [i] of [routes]. *)
Definition set_Mode (mode : HandlingMode) (v : RouteInfo) : RouteInfo :=
  {| Mode := mode; Endpoint := Endpoint v; Method := Method v;
     AuthRequired := AuthRequired v; HandlerF := HandlerF v |}.

Inductive Event :=
  | EvWriteHeader (code : Z)
  | EvWrite (b : string)
  | CallMiddleware (k : nat) (rb : RequestBody)
  | CallHandler (i : nat) (rb : RequestBody)
  | GoHandler (i : nat) (rb : RequestBody).

(** The events that are calls into user code, as opposed to the
    dispatcher's own writes to the response. *)
Definition is_call (e : Event) : bool :=
  match e with
  | EvWriteHeader _ | EvWrite _ => false
  | CallMiddleware _ _ | CallHandler _ _ | GoHandler _ _ => true
  end.

(** The request context a call was made with. *)
Definition event_context (e : Event) : option RequestBody :=
  match e with
  | EvWriteHeader _ | EvWrite _ => None
  | CallMiddleware _ rb | CallHandler _ rb | GoHandler _ rb => Some rb
  end.

(** What one call of [handle] leaves behind: the package variables, the
    response writer, the events in order, and the context as the inline
    handler left it ([None] when no handler ran inline). *)
Record Outcome := {
  globals : Globals;
  resw : http.ResponseWriter;
  trace : list Event;
  context : option RequestBody
}.

(** [for _, m := range middlewares { m(rqbody, resw, req) }] *)
Fixpoint run_middlewares (ms : list MiddlewareFunc) (k : nat)
    (rqbody : RequestBody) (resw : http.ResponseWriter) (req : http.Request)
    : RequestBody * http.ResponseWriter * list Event :=
  match ms with
  | [] => (rqbody, resw, [])
  | m :: ms' =>
      let '(rqbody', resw') := m rqbody resw req in
      let '(rqbody'', resw'', evs) := run_middlewares ms' (S k) rqbody' resw' req in
      (rqbody'', resw'', CallMiddleware k rqbody :: evs)
  end.

(** The block between the two [Lock] calls and the two [Unlock] calls, for
    the route [v] at index [i]; [elapsed] is [time.Since(t).Microseconds()].
    [None] is the panic of an integer division by zero. *)
Definition optimize (g : Globals) (i : nat) (v : RouteInfo) (elapsed : Z)
    : option Globals :=
  let g1 :=
    if (totalRequest g =? resetAt g) || (avarageResMs g =? resetAt g)
    then set_counters 0 0 g else g in
  let g2 :=
    if (totalRequest g1 >? startOptimizeAt g1) && (elapsed >? avarageResMs g1)
       && negb (Bool.eqb (Mode v) Async)
    then set_routes (<[i := set_Mode Async v]> (routes g1)) g1 else g1 in
  let total := wrap64 (totalRequest g2 + 1) in
  match div64 elapsed total with
  | None => None
  | Some q => Some (set_counters (wrap64 (avarageResMs g2 + q)) total g2)
  end.

Definition not_found (g : Globals) (resw : http.ResponseWriter) : Outcome :=
  {| globals := g;
     resw := http.WriteHeader http.StatusNotFound resw;
     trace := [EvWriteHeader http.StatusNotFound];
     context := None |}.

(** The body of the range loop once [req.URL.Path == v.Endpoint] holds for
    the route [v] at index [i]. *)
Definition handle_route (g : Globals) (i : nat) (v : RouteInfo)
    (resw : http.ResponseWriter) (req : http.Request) (elapsed : Z)
    : option Outcome :=
  if negb (String.eqb (http.Method req) (Method v)) then Some (not_found g resw)
  else
    let rqbody := {| JsonData := ""; Params := ∅; Claims := ∅ |} in
    let '(params, err) := extractParams (http.URL_Path req) (Endpoint v) in
    match err with
    | Some e =>
        Some {| globals := g;
                resw := http.Write e (http.WriteHeader http.StatusBadRequest resw);
                trace := [EvWriteHeader http.StatusBadRequest; EvWrite e];
                context := None |}
    | None =>
        let rqbody := {| JsonData := JsonData rqbody; Params := params;
                         Claims := Claims rqbody |} in
        let rqbody := {| JsonData := fst (Read (http.Body req) (JsonData rqbody));
                         Params := Params rqbody; Claims := Claims rqbody |} in
        let '(rqbody, resw, evs) :=
          run_middlewares (middlewares g) 0 rqbody resw req in
        let '(ev, ctx) :=
          if Bool.eqb (Mode v) Async then (GoHandler i rqbody, None)
          else (CallHandler i rqbody, Some (HandlerF v rqbody)) in
        match optimize g i v elapsed with
        | None => None
        | Some g' =>
            Some {| globals := g'; resw := resw; trace := evs ++ [ev];
                    context := ctx |}
        end
    end.

(** [for _, v := range routes { if req.URL.Path == v.Endpoint { ...; return } }]
    followed by the final [WriteHeader(http.StatusNotFound)]. *)
Fixpoint handle_routes (g : Globals) (rs : list RouteInfo) (i : nat)
    (resw : http.ResponseWriter) (req : http.Request) (elapsed : Z)
    : option Outcome :=
  match rs with
  | [] => Some (not_found g resw)
  | v :: rs' =>
      if String.eqb (http.URL_Path req) (Endpoint v)
      then handle_route g i v resw req elapsed
      else handle_routes g rs' (S i) resw req elapsed
  end.

Definition handle (g : Globals) (resw : http.ResponseWriter)
    (req : http.Request) (elapsed : Z) : option Outcome :=
  handle_routes g (routes g) 0 resw req elapsed.

(** Requests served one after the other, each on a fresh writer and with
    its own measured latency; the package variables are threaded through. *)
Fixpoint serve (g : Globals) (reqs : list (http.Request * Z)) : option Globals :=
  match reqs with
  | [] => Some g
  | (req, elapsed) :: reqs' =>
      match handle g http.fresh req elapsed with
      | None => None
      | Some out => serve (globals out) reqs'
      end
  end.

End Adaptive.

(** ** The plain variant ([src/unnamed/part_000]) *)

Module Plain.

(** The context carries the writer in its field [ResponseW].  One writer
    exists per request, so the field is modelled by whether it is set
    ([true]) or nil ([false]); the writer's contents travel next to the
    context. *)
Record RequestBody := {
  JsonData : string;
  Params : Parameters;
  Claims : gmap string string;
  ResponseW : bool
}.

(** A handler receives the pointer to the context: it may change the
    context and, through [ResponseW], write to the response. *)
Definition Handler :=
  RequestBody -> http.ResponseWriter -> RequestBody * http.ResponseWriter.

Definition MiddlewareFunc :=
  RequestBody -> http.ResponseWriter -> http.Request ->
  RequestBody * http.ResponseWriter.

Record RouteInfo := {
  Endpoint : string;
  Method : RequestMethod;
  AuthRequired : bool;
  HandlerF : Handler
}.

Record Globals := {
  RoutePrefix : string;
  middlewares : list MiddlewareFunc;
  routes : list RouteInfo
}.

Definition init : Globals :=
  {| RoutePrefix := "/api"; middlewares := []; routes := [] |}.

Definition AddMiddleware (f : MiddlewareFunc) (g : Globals) : Globals :=
  {| RoutePrefix := RoutePrefix g; middlewares := middlewares g ++ [f];
     routes := routes g |}.

Definition map_route (m : RequestMethod) (path : string) (auth : AuthRequire)
    (f : Handler) (g : Globals) : Globals :=
  {| RoutePrefix := RoutePrefix g; middlewares := middlewares g;
     routes := routes g ++
       [{| Endpoint := RoutePrefix g +:+ path; Method := m;
           AuthRequired := auth; HandlerF := f |}] |}.

Definition MapGet := map_route get.
Definition MapPost := map_route post.
Definition MapPut := map_route put.
Definition MapDelete := map_route delete.

Inductive Event :=
  | EvWriteHeader (code : Z)
  | EvWrite (b : string)
  | CallMiddleware (k : nat) (rb : RequestBody)
  | CallHandler (i : nat) (rb : RequestBody).

Definition is_call (e : Event) : bool :=
  match e with
  | EvWriteHeader _ | EvWrite _ => false
  | CallMiddleware _ _ | CallHandler _ _ => true
  end.

Definition event_context (e : Event) : option RequestBody :=
  match e with
  | EvWriteHeader _ | EvWrite _ => None
  | CallMiddleware _ rb | CallHandler _ rb => Some rb
  end.

Record Outcome := {
  resw : http.ResponseWriter;
  trace : list Event;
  context : option RequestBody
}.

Fixpoint run_middlewares (ms : list MiddlewareFunc) (k : nat)
    (rqbody : RequestBody) (resw : http.ResponseWriter) (req : http.Request)
    : RequestBody * http.ResponseWriter * list Event :=
  match ms with
  | [] => (rqbody, resw, [])
  | m :: ms' =>
      let '(rqbody', resw') := m rqbody resw req in
      let '(rqbody'', resw'', evs) := run_middlewares ms' (S k) rqbody' resw' req in
      (rqbody'', resw'', CallMiddleware k rqbody :: evs)
  end.

Definition not_found (resw : http.ResponseWriter) : Outcome :=
  {| resw := http.WriteHeader http.StatusNotFound resw;
     trace := [EvWriteHeader http.StatusNotFound];
     context := None |}.

(** The body of the range loop once [req.URL.Path == v.Endpoint] holds for
    the route [v] at index [i]. *)
Definition handle_route (g : Globals) (i : nat) (v : RouteInfo)
    (resw : http.ResponseWriter) (req : http.Request) : Outcome :=
  if negb (String.eqb (http.Method req) (Method v)) then not_found resw
  else
    let rqbody := {| JsonData := ""; Params := ∅; Claims := ∅;
                     ResponseW := false |} in
    let '(params, err) := extractParams (http.URL_Path req) (Endpoint v) in
    match err with
    | Some e =>
        {| resw := http.Write e (http.WriteHeader http.StatusBadRequest resw);
           trace := [EvWriteHeader http.StatusBadRequest; EvWrite e];
           context := None |}
    | None =>
        let rqbody := {| JsonData := JsonData rqbody; Params := params;
                         Claims := Claims rqbody;
                         ResponseW := ResponseW rqbody |} in
        let rqbody := {| JsonData := fst (Read (http.Body req) (JsonData rqbody));
                         Params := Params rqbody; Claims := Claims rqbody;
                         ResponseW := ResponseW rqbody |} in
        let '(rqbody, resw, evs) :=
          run_middlewares (middlewares g) 0 rqbody resw req in
        let rqbody := {| JsonData := JsonData rqbody; Params := Params rqbody;
                         Claims := Claims rqbody; ResponseW := true |} in
        let '(rqbody', resw') := HandlerF v rqbody resw in
        {| resw := resw'; trace := evs ++ [CallHandler i rqbody];
           context := Some rqbody' |}
    end.

Fixpoint handle_routes (g : Globals) (rs : list RouteInfo) (i : nat)
    (resw : http.ResponseWriter) (req : http.Request) : Outcome :=
  match rs with
  | [] => not_found resw
  | v :: rs' =>
      if String.eqb (http.URL_Path req) (Endpoint v)
      then handle_route g i v resw req
      else handle_routes g rs' (S i) resw req
  end.

Definition handle (g : Globals) (resw : http.ResponseWriter)
    (req : http.Request) : Outcome :=
  handle_routes g (routes g) 0 resw req.

End Plain.

(** ** The scanner as the specification words it *)

(** A second scanner, written from the prose contract and not from the
    code: it keeps track of being inside a [{...}] span and appends an
    ordinary character to the capture buffer only while inside one. *)
Fixpoint spanScan_loop (input : string) (res : list string)
    (buf : string) (inside : bool) : list string :=
  match input with
  | EmptyString => res
  | String c rest =>
      if Ascii.eqb c "{" then spanScan_loop rest res "" true
      else if Ascii.eqb c "}" then spanScan_loop rest (res ++ [buf]) buf false
      else spanScan_loop rest res (if inside then buf +:+ String c "" else buf) inside
  end.

Definition spanScan (input : string) : list string :=
  spanScan_loop input [] "" false.

(** Every [}] of the input closes a span: it comes after a [{] with no
    other [}] in between. *)
Fixpoint closes_spans (input : string) (inside : bool) : bool :=
  match input with
  | EmptyString => true
  | String c rest =>
      if Ascii.eqb c "{" then closes_spans rest true
      else if Ascii.eqb c "}" then inside && closes_spans rest false
      else closes_spans rest inside
  end.

(** No brace occurs in the text. *)
Fixpoint brace_free (w : string) : bool :=
  match w with
  | EmptyString => true
  | String c rest =>
      negb (Ascii.eqb c "{") && negb (Ascii.eqb c "}") && brace_free rest
  end.

(** ** The running average as the specification words it *)

(** [avg += elapsed / (n+1)] after incrementing [n], on unbounded integers;
    the state is the pair (average, count). *)
Definition running_average_step (st : Z * Z) (elapsed : Z) : Z * Z :=
  let n' := snd st + 1 in (fst st + elapsed ÷ n', n').

Definition running_average (es : list Z) : Z * Z :=
  fold_left running_average_step es (0, 0).

(** The arithmetic mean, truncated. *)
Definition true_mean (es : list Z) : Z :=
  fold_right Z.add 0 es ÷ Z.of_nat (length es).

(** ** Scenarios *)

(** A handler that leaves the context as it found it. *)
Definition keep : Adaptive.Handler := fun rb => rb.
Definition keep' : Plain.Handler := fun rb w => (rb, w).

Definition GET (path : string) : http.Request :=
  {| http.Method := "GET"; http.URL_Path := path; http.Body := "" |}.

Definition POST (path body : string) : http.Request :=
  {| http.Method := "POST"; http.URL_Path := path; http.Body := body |}.

(** The context [handle] builds before the middleware run. *)
Definition blank (params : Parameters) : Adaptive.RequestBody :=
  {| Adaptive.JsonData := ""; Adaptive.Params := params; Adaptive.Claims := ∅ |}.

Definition blank' (params : Parameters) (w : bool) : Plain.RequestBody :=
  {| Plain.JsonData := ""; Plain.Params := params; Plain.Claims := ∅;
     Plain.ResponseW := w |}.

(** The response both variants give when they find no route to run. *)
Definition answer_404 : http.ResponseWriter :=
  {| http.status := Some http.StatusNotFound; http.written := "" |}.

(** One route [GET /api/users/{id}], registered without authentication. *)
Definition users_app (mode : Adaptive.HandlingMode) (f : Adaptive.Handler)
    : Adaptive.Globals :=
  Adaptive.MapGet mode "/users/{id}" NoAuth f Adaptive.init.

Definition users_app' (f : Plain.Handler) : Plain.Globals :=
  Plain.MapGet "/users/{id}" NoAuth f Plain.init.

(** One route [POST /api/echo]. *)
Definition echo_app (mode : Adaptive.HandlingMode) (f : Adaptive.Handler)
    : Adaptive.Globals :=
  Adaptive.MapPost mode "/echo" NoAuth f Adaptive.init.

Definition echo_app' (f : Plain.Handler) : Plain.Globals :=
  Plain.MapPost "/echo" NoAuth f Plain.init.

(** One route [GET /api/work] and the promotion threshold set to 5. *)
Definition work_app (mode : Adaptive.HandlingMode) : Adaptive.Globals :=
  Adaptive.SetOptimizationThreshold 5
    (Adaptive.MapGet mode "/work" NoAuth keep Adaptive.init).

(** Two routes on one endpoint: [POST /api/items], then [GET /api/items]. *)
Definition items_app : Adaptive.Globals :=
  Adaptive.MapGet Adaptive.Sync "/items" NoAuth keep
    (Adaptive.MapPost Adaptive.Sync "/items" NoAuth keep Adaptive.init).

Definition items_app' : Plain.Globals :=
  Plain.MapGet "/items" NoAuth keep' (Plain.MapPost "/items" NoAuth keep' Plain.init).

(** ** Notions used to state further properties *)

(** The number of [}] characters of a string. *)
Fixpoint count_close (s : string) : nat :=
  match s with
  | EmptyString => 0%nat
  | String c rest =>
      ((if Ascii.eqb c "}" then 1 else 0) + count_close rest)%nat
  end.

(** A template written out from its parts: literal text, a placeholder
    name in braces, and so on, then the trailing literal text. *)
Fixpoint render_template (segs : list (string * string)) (tail : string) : string :=
  match segs with
  | [] => tail
  | (lit, name) :: segs' =>
      lit +:+ String "{" (name +:+ String "}" (render_template segs' tail))
  end.

(** What one call of the adaptive [handle] lets its surroundings see, the
    route table apart: the response, the events, the context the inline
    handler left, and the two counters. *)
Definition observable (o : Adaptive.Outcome)
    : http.ResponseWriter * list Adaptive.Event * option Adaptive.RequestBody
      * Z * Z :=
  (Adaptive.resw o, Adaptive.trace o, Adaptive.context o,
   Adaptive.totalRequest (Adaptive.globals o),
   Adaptive.avarageResMs (Adaptive.globals o)).

(** Two routes that agree on everything but, possibly, [AuthRequired]. *)
Definition same_but_auth (u u' : Adaptive.RouteInfo) : Prop :=
  Adaptive.Mode u = Adaptive.Mode u'
  ∧ Adaptive.Endpoint u = Adaptive.Endpoint u'
  ∧ Adaptive.Method u = Adaptive.Method u'
  ∧ Adaptive.HandlerF u = Adaptive.HandlerF u'.

Definition same_but_auth' (u u' : Plain.RouteInfo) : Prop :=
  Plain.Endpoint u = Plain.Endpoint u'
  ∧ Plain.Method u = Plain.Method u'
  ∧ Plain.HandlerF u = Plain.HandlerF u'.

(** Two routes that agree on everything but, possibly, [Mode]. *)
Definition same_but_mode (u u' : Adaptive.RouteInfo) : Prop :=
  Adaptive.Endpoint u = Adaptive.Endpoint u'
  ∧ Adaptive.Method u = Adaptive.Method u'
  ∧ Adaptive.AuthRequired u = Adaptive.AuthRequired u'
  ∧ Adaptive.HandlerF u = Adaptive.HandlerF u'.

(** A middleware that records its name in the claims. *)
Definition tag (name : string) : Adaptive.MiddlewareFunc :=
  fun rb w _ =>
    ({| Adaptive.JsonData := Adaptive.JsonData rb;
        Adaptive.Params := Adaptive.Params rb;
        Adaptive.Claims := <[name := "seen"]> (Adaptive.Claims rb) |}, w).

Definition tag' (name : string) : Plain.MiddlewareFunc :=
  fun rb w _ =>
    ({| Plain.JsonData := Plain.JsonData rb;
        Plain.Params := Plain.Params rb;
        Plain.Claims := <[name := "seen"]> (Plain.Claims rb);
        Plain.ResponseW := Plain.ResponseW rb |}, w).

(** ** UTF-8, as the range loop and the string conversion use it *)

(** [paramExtractAlg] does not handle bytes: [for _, c := range input]
    yields the runes decoded from the UTF-8 text of [input], an ill-formed
    or truncated sequence giving U+FFFD and advancing by one byte, and
    [string(buildStr)] encodes the runes again.  The definitions below
    follow Go's decoding and encoding (package [unicode/utf8]); runes are
    numbers in [N]. *)

Definition byte_of (c : ascii) : N := N_of_ascii c.

Definition RuneError : N := 0xFFFD%N.
Definition MaxRune : N := 0x10FFFF%N.

Definition between (lo hi b : N) : bool := ((lo <=? b) && (b <=? hi))%N.

(** The rune that starts at the byte [c], [rest] being the bytes after it,
    and the number of bytes it takes.  The lead byte fixes the length of
    the sequence and the range accepted for the second byte (which rules
    out over-long forms, surrogates and values above U+10FFFF); the other
    bytes must be continuation bytes, 0x80 to 0xBF. *)
Definition decode_rune (c : ascii) (rest : string) : N * nat :=
  let b0 := byte_of c in
  if (b0 <? 0x80)%N then (b0, 1%nat)
  else if between 0xC2 0xDF b0 then
    match rest with
    | String c1 _ =>
        let b1 := byte_of c1 in
        if between 0x80 0xBF b1
        then (((b0 - 0xC0) * 64 + (b1 - 0x80))%N, 2%nat)
        else (RuneError, 1%nat)
    | _ => (RuneError, 1%nat)
    end
  else if between 0xE0 0xEF b0 then
    match rest with
    | String c1 (String c2 _) =>
        let b1 := byte_of c1 in
        let b2 := byte_of c2 in
        let lo := if (b0 =? 0xE0)%N then 0xA0%N else 0x80%N in
        let hi := if (b0 =? 0xED)%N then 0x9F%N else 0xBF%N in
        if between lo hi b1 && between 0x80 0xBF b2
        then (((b0 - 0xE0) * 4096 + (b1 - 0x80) * 64 + (b2 - 0x80))%N, 3%nat)
        else (RuneError, 1%nat)
    | _ => (RuneError, 1%nat)
    end
  else if between 0xF0 0xF4 b0 then
    match rest with
    | String c1 (String c2 (String c3 _)) =>
        let b1 := byte_of c1 in
        let b2 := byte_of c2 in
        let b3 := byte_of c3 in
        let lo := if (b0 =? 0xF0)%N then 0x90%N else 0x80%N in
        let hi := if (b0 =? 0xF4)%N then 0x8F%N else 0xBF%N in
        if between lo hi b1 && between 0x80 0xBF b2 && between 0x80 0xBF b3
        then (((b0 - 0xF0) * 262144 + (b1 - 0x80) * 4096
               + (b2 - 0x80) * 64 + (b3 - 0x80))%N, 4%nat)
        else (RuneError, 1%nat)
    | _ => (RuneError, 1%nat)
    end
  else (RuneError, 1%nat).

(** The runes a range loop yields over [s]; [skip] counts the bytes still
    to pass over because they belong to the rune decoded last. *)
Fixpoint runes_skip (s : string) (skip : nat) : list N :=
  match s with
  | EmptyString => []
  | String c rest =>
      match skip with
      | S k => runes_skip rest k
      | O =>
          let '(r, width) := decode_rune c rest in
          r :: runes_skip rest (width - 1)
      end
  end.

Definition runes (s : string) : list N := runes_skip s 0.

(** The bytes of one rune in a converted string; a surrogate or a value
    above U+10FFFF is written as U+FFFD. *)
Definition encode_rune (r : N) : string :=
  if (r <? 0x80)%N then String (ascii_of_N r) ""
  else if (r <? 0x800)%N then
    String (ascii_of_N (0xC0 + r / 64))
      (String (ascii_of_N (0x80 + r mod 64)) "")
  else if between 0xD800 0xDFFF r || (MaxRune <? r)%N then
    String (ascii_of_N 0xEF) (String (ascii_of_N 0xBF) (String (ascii_of_N 0xBD) ""))
  else if (r <? 0x10000)%N then
    String (ascii_of_N (0xE0 + r / 4096))
      (String (ascii_of_N (0x80 + (r / 64) mod 64))
         (String (ascii_of_N (0x80 + r mod 64)) ""))
  else
    String (ascii_of_N (0xF0 + r / 262144))
      (String (ascii_of_N (0x80 + (r / 4096) mod 64))
         (String (ascii_of_N (0x80 + (r / 64) mod 64))
            (String (ascii_of_N (0x80 + r mod 64)) ""))).

(** [string(rs)] for a slice of runes. *)
Fixpoint string_of_runes (rs : list N) : string :=
  match rs with
  | [] => ""
  | r :: rs' => encode_rune r +:+ string_of_runes rs'
  end.

(** [paramExtractAlg] rune by rune, as the source has it: [buildStr] is a
    slice of runes and a token is its conversion to a string. *)
Fixpoint paramExtractAlg_runes_loop (input : list N) (res : list string)
    (buildStr : list N) : list string :=
  match input with
  | [] => res
  | c :: rest =>
      if (c =? byte_of "{")%N then paramExtractAlg_runes_loop rest res []
      else if (c =? byte_of "}")%N then
        paramExtractAlg_runes_loop rest (res ++ [string_of_runes buildStr]) buildStr
      else paramExtractAlg_runes_loop rest res (buildStr ++ [c])
  end.

Definition paramExtractAlg_runes (input : string) : list string :=
  paramExtractAlg_runes_loop (runes input) [] [].

(** Well-formed UTF-8 text ([utf8.ValidString]): no position of the range
    loop meets an ill-formed or truncated sequence, that is, every byte
    outside ASCII at which a rune starts begins a sequence of two to four
    bytes. *)
Fixpoint valid_skip (s : string) (skip : nat) : bool :=
  match s with
  | EmptyString => true
  | String c rest =>
      match skip with
      | S k => valid_skip rest k
      | O =>
          let width := (decode_rune c rest).2 in
          ((byte_of c <? 0x80)%N || negb (Nat.eqb width 1))
          && valid_skip rest (width - 1)
      end
  end.

Definition valid_utf8 (s : string) : bool := valid_skip s 0.

(** A string given by the values of its bytes. *)
Definition bytes_string (l : list N) : string :=
  fold_right (fun b s => String (ascii_of_N b) s) "" l.

(** The span-tracking scanner of the prose contract, rune by rune, and
    the test that every [}] closes a span. *)
Fixpoint spanScan_runes_loop (input : list N) (res : list string)
    (buf : list N) (inside : bool) : list string :=
  match input with
  | [] => res
  | c :: rest =>
      if (c =? byte_of "{")%N then spanScan_runes_loop rest res [] true
      else if (c =? byte_of "}")%N then
        spanScan_runes_loop rest (res ++ [string_of_runes buf]) buf false
      else
        spanScan_runes_loop rest res (if inside then buf ++ [c] else buf) inside
  end.

Definition spanScan_runes (input : string) : list string :=
  spanScan_runes_loop (runes input) [] [] false.

Fixpoint closes_spans_runes (input : list N) (inside : bool) : bool :=
  match input with
  | [] => true
  | c :: rest =>
      if (c =? byte_of "{")%N then closes_spans_runes rest true
      else if (c =? byte_of "}")%N then inside && closes_spans_runes rest false
      else closes_spans_runes rest inside
  end.

(** No rune of the list is a brace. *)
Definition brace_free_runes (w : list N) : bool :=
  forallb (fun c => negb (c =? byte_of "{")%N && negb (c =? byte_of "}")%N) w.

(** * Properties *)

(** ** The scanner *)

Lemma paramExtractAlg_loop_res (s : string) : ∀ res buf,
  paramExtractAlg_loop s res buf = res ++ paramExtractAlg_loop s [] buf.
Proof.
  induction s as [|c s IH]; intros res buf; simpl.
  - by rewrite app_nil_r.
  - destruct (Ascii.eqb c "{"); [apply IH|].
    destruct (Ascii.eqb c "}"); [|apply IH].
    rewrite (IH (res ++ [buf])), (IH ([] ++ [buf])). by rewrite <- app_assoc.
Qed.

Lemma append_nil_l (b : string) : "" +:+ b = b.
Proof. reflexivity. Qed.

Lemma append_cons (x : ascii) (a b : string) :
  String x a +:+ b = String x (a +:+ b).
Proof. reflexivity. Qed.

Lemma append_assoc (a b c : string) : (a +:+ b) +:+ c = a +:+ (b +:+ c).
Proof.
  induction a as [|x a IH]; [done|]. by rewrite !append_cons, IH.
Qed.

Lemma append_empty_r (a : string) : a +:+ "" = a.
Proof.
  induction a as [|x a IH]; [done|]. by rewrite append_cons, IH.
Qed.

Lemma paramExtractAlg_loop_open (p q : string) : ∀ res buf,
  paramExtractAlg_loop (p +:+ String "{" q) res buf
  = paramExtractAlg_loop p res buf ++ paramExtractAlg q.
Proof.
  induction p as [|c p IH]; intros res buf.
  - rewrite append_nil_l. simpl. apply paramExtractAlg_loop_res.
  - rewrite append_cons. simpl.
    destruct (Ascii.eqb c "{"); [apply IH|].
    destruct (Ascii.eqb c "}"); apply IH.
Qed.

Lemma paramExtractAlg_loop_close (w q : string) : ∀ res buf,
  brace_free w = true →
  paramExtractAlg_loop (w +:+ String "}" q) res buf
  = paramExtractAlg_loop q (res ++ [buf +:+ w]) (buf +:+ w).
Proof.
  induction w as [|c w IH]; intros res buf Hw.
  - rewrite append_nil_l, append_empty_r. reflexivity.
  - rewrite append_cons. simpl in *.
    apply andb_prop in Hw as [Hc Hw]. apply andb_prop in Hc as [Ho Hc].
    apply negb_true_iff in Ho, Hc. rewrite Ho, Hc.
    rewrite IH by done. by rewrite append_assoc, append_cons, append_nil_l.
Qed.

Lemma paramExtractAlg_loop_spanScan (s : string) : ∀ res buf buf' inside,
  closes_spans s inside = true →
  (inside = true → buf = buf') →
  paramExtractAlg_loop s res buf = spanScan_loop s res buf' inside.
Proof.
  induction s as [|c s IH]; intros res buf buf' inside Hs Hb; simpl in *; [done|].
  destruct (Ascii.eqb c "{"); [by apply IH|].
  destruct (Ascii.eqb c "}").
  - apply andb_prop in Hs as [Hi Hs]. rewrite <- (Hb Hi). by apply IH.
  - apply IH; [done|]. intros Hi. rewrite Hi. by rewrite (Hb Hi).
Qed.

(** ** The scan over runes and the scan over bytes *)

Lemma byte_of_lt_256 (c : ascii) : (byte_of c < 256)%N.
Proof. apply N_ascii_bounded. Qed.

Lemma ascii_of_byte_of (c : ascii) : ascii_of_N (byte_of c) = c.
Proof. apply ascii_N_embedding. Qed.

Lemma byte_of_eqb (c d : ascii) : (byte_of c =? byte_of d)%N = Ascii.eqb c d.
Proof.
  destruct (Ascii.eqb_spec c d) as [->|Hne].
  - apply N.eqb_refl.
  - apply N.eqb_neq. intros Heq. apply Hne.
    by rewrite <- (ascii_of_byte_of c), <- (ascii_of_byte_of d), Heq.
Qed.

Lemma high_byte_is_no_brace (c : ascii) :
  (128 <= byte_of c)%N → Ascii.eqb c "{" = false ∧ Ascii.eqb c "}" = false.
Proof.
  intros Hc. rewrite <- !byte_of_eqb.
  change (byte_of "{") with 123%N. change (byte_of "}") with 125%N.
  split; apply N.eqb_neq; lia.
Qed.

Lemma paramExtractAlg_loop_brace_free_app (w q : string) : ∀ res buf,
  brace_free w = true →
  paramExtractAlg_loop (w +:+ q) res buf
  = paramExtractAlg_loop q res (buf +:+ w).
Proof.
  induction w as [|c w IH]; intros res buf Hw.
  - by rewrite append_nil_l, append_empty_r.
  - rewrite append_cons. simpl in *.
    apply andb_prop in Hw as [Hc Hw]. apply andb_prop in Hc as [Ho Hc].
    apply negb_true_iff in Ho, Hc. rewrite Ho, Hc.
    rewrite IH by done. by rewrite append_assoc, append_cons, append_nil_l.
Qed.

Lemma string_of_runes_snoc (rb : list N) (r : N) :
  string_of_runes (rb ++ [r]) = string_of_runes rb +:+ encode_rune r.
Proof.
  induction rb as [|x rb IH]; simpl.
  - by rewrite append_nil_l, append_empty_r.
  - by rewrite IH, append_assoc.
Qed.

Lemma div_mod_shift (a b m : N) :
  (b < m)%N → ((a * m + b) / m = a ∧ (a * m + b) mod m = b)%N.
Proof.
  intros Hb. split.
  - symmetry. apply (N.div_unique _ _ _ b); lia.
  - symmetry. apply (N.mod_unique _ _ a); lia.
Qed.

Lemma encode_rune_1 (b0 : N) :
  (b0 < 128)%N → encode_rune b0 = String (ascii_of_N b0) "".
Proof.
  intros H. unfold encode_rune.
  by destruct (N.ltb_spec b0 0x80) as [_|E]; [|lia].
Qed.

Lemma encode_rune_2 (b0 b1 : N) :
  (194 <= b0 <= 223)%N → (128 <= b1 <= 191)%N →
  encode_rune ((b0 - 0xC0) * 64 + (b1 - 0x80))
  = String (ascii_of_N b0) (String (ascii_of_N b1) "").
Proof.
  intros H0 H1. unfold encode_rune.
  destruct (div_mod_shift (b0 - 0xC0) (b1 - 0x80) 64) as [Hd Hm]; [lia|].
  set (r := ((b0 - 0xC0) * 64 + (b1 - 0x80))%N) in *.
  assert (128 <= r < 2048)%N by (unfold r; lia).
  destruct (N.ltb_spec r 0x80) as [E|_]; [lia|].
  destruct (N.ltb_spec r 0x800) as [_|E]; [|lia].
  rewrite Hd, Hm. do 2 f_equal; [f_equal; lia|do 2 f_equal; lia].
Qed.

Lemma encode_rune_3 (b0 b1 b2 : N) :
  (224 <= b0 <= 239)%N → (128 <= b1 <= 191)%N → (128 <= b2 <= 191)%N →
  (b0 = 224 → 160 <= b1)%N → (b0 = 237 → b1 <= 159)%N →
  encode_rune ((b0 - 0xE0) * 4096 + (b1 - 0x80) * 64 + (b2 - 0x80))
  = String (ascii_of_N b0)
      (String (ascii_of_N b1) (String (ascii_of_N b2) "")).
Proof.
  intros H0 H1 H2 Hlo Hhi. unfold encode_rune, between, MaxRune.
  set (x := (b0 - 0xE0)%N). set (y := (b1 - 0x80)%N). set (z := (b2 - 0x80)%N).
  assert (Hx : (x * 4096 + y * 64 + z = x * 4096 + (y * 64 + z))%N) by lia.
  assert (Hy : (x * 4096 + y * 64 + z = (x * 64 + y) * 64 + z)%N) by lia.
  destruct (div_mod_shift x (y * 64 + z) 4096) as [Hd1 _]; [unfold y, z; lia|].
  destruct (div_mod_shift (x * 64 + y) z 64) as [Hd2 Hm2]; [unfold z; lia|].
  destruct (div_mod_shift x y 64) as [_ Hm3]; [unfold y; lia|].
  set (r := (x * 4096 + y * 64 + z)%N) in *.
  assert (2048 <= r < 65536)%N by (unfold r, x, y, z; lia).
  assert (r < 55296 ∨ 57343 < r)%N by (unfold r, x, y, z; lia).
  destruct (N.ltb_spec r 0x80) as [E|_]; [lia|].
  destruct (N.ltb_spec r 0x800) as [E|_]; [lia|].
  assert (((0xD800 <=? r) && (r <=? 0xDFFF))%N = false) as ->.
  { apply andb_false_iff.
    destruct (N.leb_spec 0xD800 r), (N.leb_spec r 0xDFFF); auto; lia. }
  destruct (N.ltb_spec 0x10FFFF r) as [E|_]; [lia|]. simpl.
  destruct (N.ltb_spec r 0x10000) as [_|E]; [|lia].
  rewrite Hx, Hd1, <- Hx, Hy, Hd2, Hm2, Hm3.
  unfold x, y, z. repeat f_equal; lia.
Qed.

Lemma encode_rune_4 (b0 b1 b2 b3 : N) :
  (240 <= b0 <= 244)%N → (128 <= b1 <= 191)%N → (128 <= b2 <= 191)%N →
  (128 <= b3 <= 191)%N →
  (b0 = 240 → 144 <= b1)%N → (b0 = 244 → b1 <= 143)%N →
  encode_rune ((b0 - 0xF0) * 262144 + (b1 - 0x80) * 4096
               + (b2 - 0x80) * 64 + (b3 - 0x80))
  = String (ascii_of_N b0)
      (String (ascii_of_N b1)
         (String (ascii_of_N b2) (String (ascii_of_N b3) ""))).
Proof.
  intros H0 H1 H2 H3 Hlo Hhi. unfold encode_rune, between, MaxRune.
  set (x := (b0 - 0xF0)%N). set (y := (b1 - 0x80)%N).
  set (z := (b2 - 0x80)%N). set (u := (b3 - 0x80)%N).
  assert (Hx : (x * 262144 + y * 4096 + z * 64 + u
                = x * 262144 + (y * 4096 + z * 64 + u))%N) by lia.
  assert (Hy : (x * 262144 + y * 4096 + z * 64 + u
                = (x * 64 + y) * 4096 + (z * 64 + u))%N) by lia.
  assert (Hz : (x * 262144 + y * 4096 + z * 64 + u
                = ((x * 64 + y) * 64 + z) * 64 + u)%N) by lia.
  destruct (div_mod_shift x (y * 4096 + z * 64 + u) 262144) as [Hd1 _];
    [unfold y, z, u; lia|].
  destruct (div_mod_shift (x * 64 + y) (z * 64 + u) 4096) as [Hd2 _];
    [unfold z, u; lia|].
  destruct (div_mod_shift ((x * 64 + y) * 64 + z) u 64) as [Hd3 Hm3];
    [unfold u; lia|].
  destruct (div_mod_shift x y 64) as [_ Hm4]; [unfold y; lia|].
  destruct (div_mod_shift (x * 64 + y) z 64) as [_ Hm5]; [unfold z; lia|].
  set (r := (x * 262144 + y * 4096 + z * 64 + u)%N) in *.
  assert (65536 <= r <= 1114111)%N by (unfold r, x, y, z, u; lia).
  destruct (N.ltb_spec r 0x80) as [E|_]; [lia|].
  destruct (N.ltb_spec r 0x800) as [E|_]; [lia|].
  assert (((0xD800 <=? r) && (r <=? 0xDFFF))%N = false) as ->.
  { apply andb_false_iff. right. apply N.leb_gt. lia. }
  destruct (N.ltb_spec 0x10FFFF r) as [E|_]; [lia|]. simpl.
  destruct (N.ltb_spec r 0x10000) as [E|_]; [lia|].
  rewrite Hx, Hd1, <- Hx, Hy, Hd2, Hm4, <- Hy, Hz, Hd3, Hm3, Hm5.
  unfold x, y, z, u. repeat f_equal; lia.
Qed.

Lemma between_spec (lo hi b : N) :
  between lo hi b = true ↔ (lo <= b <= hi)%N.
Proof.
  unfold between. rewrite andb_true_iff, !N.leb_le. tauto.
Qed.

(** At a position where the text is well formed, the decoded rune encodes
    back to the bytes it was read from; outside ASCII neither these bytes
    nor the rune is a brace. *)
Lemma decode_rune_well_formed (c : ascii) (rest : string) :
  (byte_of c <? 0x80)%N || negb (Nat.eqb (decode_rune c rest).2 1) = true →
  ∃ more rest',
    rest = more +:+ rest'
    ∧ String.length more = ((decode_rune c rest).2 - 1)%nat
    ∧ encode_rune (decode_rune c rest).1 = String c more
    ∧ (((byte_of c < 128)%N ∧ more = ""
        ∧ (decode_rune c rest).1 = byte_of c)
       ∨ (brace_free (String c more) = true
          ∧ (128 <= (decode_rune c rest).1)%N)).
Proof.
  pose proof (ascii_of_byte_of c) as Hc0.
  unfold decode_rune.
  destruct (N.ltb_spec (byte_of c) 0x80) as [Hlt|Hge]; simpl.
  { intros _. exists "", rest. repeat split; try done.
    - by rewrite encode_rune_1, Hc0.
    - left. done. }
  destruct (high_byte_is_no_brace c Hge) as [Ho Hcl].
  destruct (between 0xC2 0xDF (byte_of c)) eqn:H2.
  { apply between_spec in H2.
    destruct rest as [|c1 rest1]; [done|].
    destruct (between 0x80 0xBF (byte_of c1)) eqn:Hb1; [|done].
    apply between_spec in Hb1. intros _.
    destruct (high_byte_is_no_brace c1 ltac:(lia)) as [Ho1 Hcl1].
    exists (String c1 ""), rest1. simpl. repeat split; try done.
    - rewrite encode_rune_2 by lia.
      by rewrite Hc0, (ascii_of_byte_of c1).
    - right. rewrite Ho, Hcl, Ho1, Hcl1. split; [done|]. lia. }
  destruct (between 0xE0 0xEF (byte_of c)) eqn:H3.
  { apply between_spec in H3.
    destruct rest as [|c1 [|c2 rest2]]; [done..|].
    destruct (between _ _ (byte_of c1) && between 0x80 0xBF (byte_of c2))
      eqn:Hb; [|done].
    apply andb_prop in Hb as [Hb1 Hb2].
    apply between_spec in Hb1, Hb2. intros _.
    assert (H1 : (128 <= byte_of c1 <= 191)%N
                 ∧ (byte_of c = 224 → 160 <= byte_of c1)%N
                 ∧ (byte_of c = 237 → byte_of c1 <= 159)%N).
    { destruct (N.eqb_spec (byte_of c) 0xE0), (N.eqb_spec (byte_of c) 0xED);
        lia. }
    destruct H1 as (H1 & Hlo & Hhi).
    destruct (high_byte_is_no_brace c1 ltac:(lia)) as [Ho1 Hcl1].
    destruct (high_byte_is_no_brace c2 ltac:(lia)) as [Ho2 Hcl2].
    exists (String c1 (String c2 "")), rest2. simpl. repeat split; try done.
    - rewrite encode_rune_3 by (done || lia).
      by rewrite Hc0, (ascii_of_byte_of c1), (ascii_of_byte_of c2).
    - right. rewrite Ho, Hcl, Ho1, Hcl1, Ho2, Hcl2. split; [done|]. lia. }
  destruct (between 0xF0 0xF4 (byte_of c)) eqn:H4; [|done].
  apply between_spec in H4.
  destruct rest as [|c1 [|c2 [|c3 rest3]]]; [done..|].
  destruct (between _ _ (byte_of c1) && between 0x80 0xBF (byte_of c2)
            && between 0x80 0xBF (byte_of c3)) eqn:Hb; [|done].
  apply andb_prop in Hb as [Hb Hb3]. apply andb_prop in Hb as [Hb1 Hb2].
  apply between_spec in Hb1, Hb2, Hb3. intros _.
  assert (H1 : (128 <= byte_of c1 <= 191)%N
               ∧ (byte_of c = 240 → 144 <= byte_of c1)%N
               ∧ (byte_of c = 244 → byte_of c1 <= 143)%N).
  { destruct (N.eqb_spec (byte_of c) 0xF0), (N.eqb_spec (byte_of c) 0xF4);
      lia. }
  destruct H1 as (H1 & Hlo & Hhi).
  destruct (high_byte_is_no_brace c1 ltac:(lia)) as [Ho1 Hcl1].
  destruct (high_byte_is_no_brace c2 ltac:(lia)) as [Ho2 Hcl2].
  destruct (high_byte_is_no_brace c3 ltac:(lia)) as [Ho3 Hcl3].
  exists (String c1 (String c2 (String c3 ""))), rest3. simpl.
  repeat split; try done.
  - rewrite encode_rune_4 by (done || lia).
    by rewrite Hc0, (ascii_of_byte_of c1), (ascii_of_byte_of c2),
         (ascii_of_byte_of c3).
  - right. rewrite Ho, Hcl, Ho1, Hcl1, Ho2, Hcl2, Ho3, Hcl3.
    split; [done|]. lia.
Qed.

Lemma runes_skip_app (more rest : string) :
  runes_skip (more +:+ rest) (String.length more) = runes_skip rest 0.
Proof.
  induction more as [|c more IH]; [done|]. by rewrite append_cons.
Qed.

Lemma valid_skip_app (more rest : string) :
  valid_skip (more +:+ rest) (String.length more) = valid_skip rest 0.
Proof.
  induction more as [|c more IH]; [done|]. by rewrite append_cons.
Qed.

Lemma length_append (a b : string) :
  String.length (a +:+ b) = (String.length a + String.length b)%nat.
Proof.
  induction a as [|c a IH]; [done|]. rewrite append_cons. simpl. by rewrite IH.
Qed.

(** On well-formed UTF-8 text the scan over runes of the source is the
    scan over bytes, the rune buffer standing for its encoding. *)
Lemma paramExtractAlg_runes_loop_bytes (n : nat) : ∀ (s : string) res rb,
  (String.length s <= n)%nat → valid_utf8 s = true →
  paramExtractAlg_runes_loop (runes s) res rb
  = paramExtractAlg_loop s res (string_of_runes rb).
Proof.
  unfold valid_utf8, runes.
  induction n as [|n IH]; intros s res rb Hlen Hvalid.
  { destruct s; [done|]. simpl in Hlen. lia. }
  destruct s as [|c rest]; [done|].
  cbn [valid_skip runes_skip] in *.
  apply andb_prop in Hvalid as [Hwf Hvalid].
  destruct (decode_rune_well_formed c rest Hwf)
    as (more & rest' & Hrest & Hmore & Henc & Hcase).
  destruct (decode_rune c rest) as [r width]. cbn [fst snd] in *.
  rewrite <- Hmore, Hrest in Hvalid |- *.
  rewrite valid_skip_app in Hvalid. rewrite runes_skip_app.
  assert (Hlen' : (String.length rest' <= n)%nat).
  { simpl in Hlen. rewrite Hrest, length_append in Hlen. lia. }
  destruct Hcase as [(Hlt & -> & ->)|[Hbf Hr]].
  - rewrite append_nil_l.
    cbn [paramExtractAlg_runes_loop paramExtractAlg_loop].
    rewrite !byte_of_eqb.
    destruct (Ascii.eqb c "{"); [by apply IH|].
    destruct (Ascii.eqb c "}"); [by apply IH|].
    rewrite IH by done. by rewrite string_of_runes_snoc, Henc.
  - cbn [paramExtractAlg_runes_loop].
    change (byte_of "{") with 123%N. change (byte_of "}") with 125%N.
    destruct (N.eqb_spec r 123) as [E|_]; [lia|].
    destruct (N.eqb_spec r 125) as [E|_]; [lia|].
    rewrite IH by done.
    rewrite string_of_runes_snoc, Henc.
    change (String c (more +:+ rest')) with (String c more +:+ rest').
    by rewrite paramExtractAlg_loop_brace_free_app.
Qed.

Lemma paramExtractAlg_runes_bytes (s : string) :
  valid_utf8 s = true → paramExtractAlg_runes s = paramExtractAlg s.
Proof.
  intros Hvalid. unfold paramExtractAlg_runes, paramExtractAlg.
  by rewrite (paramExtractAlg_runes_loop_bytes (String.length s)).
Qed.

Lemma paramExtractAlg_runes_loop_res (s : list N) : ∀ res rb,
  paramExtractAlg_runes_loop s res rb
  = res ++ paramExtractAlg_runes_loop s [] rb.
Proof.
  induction s as [|c s IH]; intros res rb; cbn [paramExtractAlg_runes_loop].
  - by rewrite app_nil_r.
  - destruct (c =? byte_of "{")%N; [apply IH|].
    destruct (c =? byte_of "}")%N; [|apply IH].
    rewrite (IH (res ++ _)), (IH ([] ++ _)). by rewrite <- app_assoc.
Qed.

Lemma paramExtractAlg_runes_loop_open (p q : list N) : ∀ res rb,
  paramExtractAlg_runes_loop (p ++ byte_of "{" :: q) res rb
  = paramExtractAlg_runes_loop p res rb ++ paramExtractAlg_runes_loop q [] [].
Proof.
  induction p as [|c p IH]; intros res rb.
  - rewrite app_nil_l. cbn [paramExtractAlg_runes_loop].
    rewrite N.eqb_refl. apply paramExtractAlg_runes_loop_res.
  - rewrite <- app_comm_cons. cbn [paramExtractAlg_runes_loop].
    destruct (c =? byte_of "{")%N; [apply IH|].
    destruct (c =? byte_of "}")%N; apply IH.
Qed.

Lemma paramExtractAlg_runes_loop_close (w q : list N) : ∀ res rb,
  brace_free_runes w = true →
  paramExtractAlg_runes_loop (w ++ byte_of "}" :: q) res rb
  = paramExtractAlg_runes_loop q (res ++ [string_of_runes (rb ++ w)]) (rb ++ w).
Proof.
  unfold brace_free_runes.
  induction w as [|c w IH]; intros res rb Hw.
  - rewrite app_nil_l, app_nil_r. cbn [paramExtractAlg_runes_loop].
    change (byte_of "}" =? byte_of "{")%N with false.
    by rewrite N.eqb_refl.
  - rewrite <- app_comm_cons. cbn [paramExtractAlg_runes_loop forallb] in *.
    apply andb_prop in Hw as [Hc Hw]. apply andb_prop in Hc as [Ho Hc].
    apply negb_true_iff in Ho, Hc. rewrite Ho, Hc.
    rewrite IH by done. by rewrite <- app_assoc.
Qed.

Lemma paramExtractAlg_runes_loop_spanScan (s : list N) : ∀ res rb rb' inside,
  closes_spans_runes s inside = true →
  (inside = true → rb = rb') →
  paramExtractAlg_runes_loop s res rb = spanScan_runes_loop s res rb' inside.
Proof.
  induction s as [|c s IH]; intros res rb rb' inside Hs Hb;
    cbn [paramExtractAlg_runes_loop spanScan_runes_loop closes_spans_runes] in *;
    [done|].
  destruct (c =? byte_of "{")%N; [by apply IH|].
  destruct (c =? byte_of "}")%N.
  - apply andb_prop in Hs as [Hi Hs]. rewrite <- (Hb Hi). by apply IH.
  - apply IH; [done|]. intros Hi. rewrite Hi. by rewrite (Hb Hi).
Qed.

(** C2, as the code has it.  The scan goes over the runes of its input
    ([paramExtractAlg_runes_loop]); for every sequence of runes: a [{]
    starts a fresh capture, so the tokens of [p{q] are those of [p]
    followed by those of [q]; runes other than braces are appended to the
    capture buffer whether or not a [{] came before, and the [}] after them
    returns the whole buffer, converted to a string, and keeps it; and when
    every [}] closes a span, the result is the one of the span-tracking
    scanner of the prose contract, so nothing from outside a span is
    returned.  On well-formed UTF-8 text the scan over runes is the scan
    over bytes [paramExtractAlg], for which the same laws hold. *)
Theorem paramExtractAlg_scan :
  (∀ p q : string,
     paramExtractAlg (p +:+ String "{" q)
     = paramExtractAlg p ++ paramExtractAlg q) ∧
  (∀ (p q : list N) (res : list string) (rb : list N),
     paramExtractAlg_runes_loop (p ++ byte_of "{" :: q) res rb
     = paramExtractAlg_runes_loop p res rb
       ++ paramExtractAlg_runes_loop q [] []) ∧
  (∀ (w q : list N) (res : list string) (rb : list N),
     brace_free_runes w = true →
     paramExtractAlg_runes_loop (w ++ byte_of "}" :: q) res rb
     = paramExtractAlg_runes_loop q
         (res ++ [string_of_runes (rb ++ w)]) (rb ++ w)) ∧
  (∀ s : string,
     closes_spans_runes (runes s) false = true →
     paramExtractAlg_runes s = spanScan_runes s) ∧
  (∀ (s : string) (res : list string) (rb : list N),
     valid_utf8 s = true →
     paramExtractAlg_runes_loop (runes s) res rb
     = paramExtractAlg_loop s res (string_of_runes rb)) ∧
  (∀ (w q : string) (res : list string) (buf : string),
     valid_utf8 (w +:+ String "}" q) = true →
     brace_free w = true →
     paramExtractAlg_loop (w +:+ String "}" q) res buf
     = paramExtractAlg_loop q (res ++ [buf +:+ w]) (buf +:+ w)) ∧
  (∀ s : string,
     valid_utf8 s = true → closes_spans s false = true →
     paramExtractAlg_runes s = spanScan s ∧ paramExtractAlg s = spanScan s).
Proof.
  split; [|split; [|split; [|split; [|split; [|split]]]]].
  - intros p q. apply paramExtractAlg_loop_open.
  - intros p q res rb. apply paramExtractAlg_runes_loop_open.
  - intros w q res rb. apply paramExtractAlg_runes_loop_close.
  - intros s Hs. by apply paramExtractAlg_runes_loop_spanScan.
  - intros s res rb Hv.
    by apply (paramExtractAlg_runes_loop_bytes (String.length s)).
  - intros w q res buf _. apply paramExtractAlg_loop_close.
  - intros s Hv Hs. rewrite paramExtractAlg_runes_bytes by done.
    split; by apply paramExtractAlg_loop_spanScan.
Qed.

Lemma paramExtractAlg_scan_witness :
  paramExtractAlg ("/a" +:+ String "{" "x}/b")
    = paramExtractAlg "/a" ++ paramExtractAlg "x}/b" ∧
  paramExtractAlg_runes_loop ([233; 8364] ++ byte_of "}" :: [])%N [] [47%N]
    = [bytes_string [0x2F; 0xC3; 0xA9; 0xE2; 0x82; 0xAC]%N] ∧
  paramExtractAlg_runes
    (bytes_string [0x2F; 0xC3; 0xA9; 0x2F; 0x7B; 0xE2; 0x82; 0xAC; 0x7D]%N)
    = [bytes_string [0xE2; 0x82; 0xAC]%N] ∧
  paramExtractAlg_loop ("lit" +:+ String "}" "") [] "pre" = ["prelit"] ∧
  paramExtractAlg "/api/users/{id}/posts/{post}" = ["id"; "post"].
Proof.
  destruct paramExtractAlg_scan
    as (Hopen & _ & Hrclose & Hragree & _ & Hclose & Hagree).
  split; [apply Hopen|]. split; [|split; [|split]].
  - rewrite Hrclose; reflexivity.
  - rewrite Hragree; reflexivity.
  - rewrite Hclose; reflexivity.
  - destruct (Hagree "/api/users/{id}/posts/{post}") as [_ ->]; reflexivity.
Defined.

(** C2, as the claim states it, fails: in ["a}"] the character [a] stands
    outside any span, yet the code returns it as a token, where the
    span-tracking scanner returns the empty token; and after a closed span
    the literal text up to a stray [}] is returned as well. *)
Lemma paramExtractAlg_returns_outside_text :
  paramExtractAlg "a}" = ["a"] ∧ spanScan "a}" = [""] ∧
  paramExtractAlg "{x}/y}" = ["x"; "x/y"] ∧ spanScan "{x}/y}" = ["x"; "x"] ∧
  paramExtractAlg "a}" ≠ spanScan "a}" ∧
  paramExtractAlg_runes "a}" = ["a"] ∧ spanScan_runes "a}" = [""] ∧
  paramExtractAlg_runes "{x}/y}" = ["x"; "x/y"].
Proof. repeat split; try reflexivity. discriminate. Qed.

(** On ill-formed text the two scans part: the byte 0xFF inside a span is
    read as U+FFFD and returned as its three bytes. *)
Lemma paramExtractAlg_runes_ill_formed_byte :
  valid_utf8 (bytes_string [0x7B; 0xFF; 0x7D]%N) = false
  ∧ paramExtractAlg_runes (bytes_string [0x7B; 0xFF; 0x7D]%N)
    = [bytes_string [0xEF; 0xBF; 0xBD]%N]
  ∧ paramExtractAlg (bytes_string [0x7B; 0xFF; 0x7D]%N)
    = [bytes_string [0xFF]%N].
Proof. repeat split; reflexivity. Qed.

(** ** The matcher *)

Lemma bind_params_notin (lp : list string) : ∀ (p : list string) (m : Parameters) name,
  name ∉ lp → bind_params lp p m !! name = m !! name.
Proof.
  induction lp as [|k lp IH]; intros p m name Hn; [done|].
  destruct p as [|v p]; [done|]. simpl.
  apply not_elem_of_cons in Hn as [Hk Hn].
  rewrite IH by done. by rewrite lookup_insert_ne.
Qed.

Lemma bind_params_last (lp : list string) :
  ∀ (p : list string) (m : Parameters) (i : nat) name value,
  lp !! i = Some name → p !! i = Some value →
  (∀ j, (i < j)%nat → lp !! j ≠ Some name) →
  bind_params lp p m !! name = Some value.
Proof.
  induction lp as [|k lp IH]; intros p m i name value Hl Hp Hlast; [done|].
  destruct p as [|v p]; [done|]. destruct i as [|i]; simpl in *.
  - injection Hl as ->. injection Hp as ->.
    rewrite bind_params_notin; [by rewrite lookup_insert_eq|].
    intros Hin. apply list_elem_of_lookup in Hin as [j Hj].
    by apply (Hlast (S j)); [lia|].
  - apply (IH p _ i); [done..|].
    intros j Hj. apply (Hlast (S j)). lia.
Qed.

Lemma extractParams_error (path locPath : string) :
  length (paramExtractAlg path) ≠ length (paramExtractAlg locPath) →
  extractParams path locPath = (∅, Some invalid_URL_params).
Proof.
  intros Hne. unfold extractParams.
  by destruct (Nat.eqb_spec (length (paramExtractAlg path))
                 (length (paramExtractAlg locPath))).
Qed.

Lemma extractParams_ok (path locPath : string) :
  length (paramExtractAlg path) = length (paramExtractAlg locPath) →
  extractParams path locPath
  = (bind_params (paramExtractAlg locPath) (paramExtractAlg path) ∅, None).
Proof.
  intros Heq. unfold extractParams. by rewrite Heq, Nat.eqb_refl.
Qed.

Lemma extractParams_same (s : string) :
  extractParams s s = (bind_params (paramExtractAlg s) (paramExtractAlg s) ∅, None).
Proof. by apply extractParams_ok. Qed.

(** C8.  When the two scans differ in length, [extractParams] returns the
    error "invalid URL params" and the empty (nil) map.  Otherwise it
    returns a map and no error; the map sends the i-th name of the template
    to the i-th token of the path, the last occurrence of a repeated name
    deciding its value, and holds no other key. *)
Theorem extractParams_contract (path locPath : string) :
  let p := paramExtractAlg path in
  let lp := paramExtractAlg locPath in
  (length p ≠ length lp →
     extractParams path locPath = (∅, Some invalid_URL_params)) ∧
  (length p = length lp →
     ∃ m : Parameters,
       extractParams path locPath = (m, None) ∧
       (∀ (i : nat) name value,
          lp !! i = Some name → p !! i = Some value →
          (∀ j, (i < j)%nat → lp !! j ≠ Some name) →
          m !! name = Some value) ∧
       (∀ name, name ∉ lp → m !! name = None)).
Proof.
  intros p lp. split.
  - apply extractParams_error.
  - intros Heq. eexists. split; [by apply extractParams_ok|]. split.
    + intros i name value. apply bind_params_last.
    + intros name Hn. by rewrite bind_params_notin.
Qed.

Lemma extractParams_contract_witness :
  extractParams "/api/users/42" "/api/users/{id}" = (∅, Some invalid_URL_params) ∧
  ∃ m : Parameters,
    extractParams "/{1}/{2}/{3}" "/{a}/{b}/{a}" = (m, None) ∧
    m !! "a" = Some "3" ∧ m !! "b" = Some "2" ∧ m !! "c" = None.
Proof.
  split.
  - apply (extractParams_contract "/api/users/42" "/api/users/{id}").
    vm_compute. discriminate.
  - destruct (extractParams_contract "/{1}/{2}/{3}" "/{a}/{b}/{a}")
      as [_ Hok].
    destruct (Hok eq_refl) as (m & Hm & Hzip & Hnone).
    exists m. split; [exact Hm|]. split; [|split].
    + apply (Hzip 2%nat); [reflexivity..|].
      intros [|[|[|j]]] Hj; try lia; discriminate.
    + apply (Hzip 1%nat); [reflexivity..|].
      intros [|[|[|j]]] Hj; try lia; discriminate.
    + apply Hnone. vm_compute.
      intros Hin. repeat (apply elem_of_cons in Hin as [Hin|Hin]; [discriminate|]).
      by apply elem_of_nil in Hin.
Defined.

(** ** The dispatcher of the adaptive variant *)

Section adaptive.
Import Adaptive.

Lemma Read_nil (stream : string) : fst (Read stream "") = "".
Proof. by destruct stream. Qed.

Lemma run_middlewares_calls (ms : list MiddlewareFunc) :
  ∀ k rqbody resw req,
  forallb is_call (run_middlewares ms k rqbody resw req).2 = true.
Proof.
  induction ms as [|m ms IH]; intros k rqbody resw req; simpl; [done|].
  destruct (m rqbody resw req) as [rb' w'].
  specialize (IH (S k) rb' w' req).
  destruct (run_middlewares ms (S k) rb' w' req) as [[rb'' w''] evs].
  simpl in *. done.
Qed.

Lemma handle_routes_skip (g : Globals) (pre rs : list RouteInfo) resw req elapsed :
  ∀ i,
  Forall (λ u, Endpoint u ≠ http.URL_Path req) pre →
  handle_routes g (pre ++ rs) i resw req elapsed
  = handle_routes g rs (i + length pre) resw req elapsed.
Proof.
  induction pre as [|u pre IH]; intros i Hpre; simpl.
  - by rewrite Nat.add_0_r.
  - apply Forall_cons in Hpre as [Hu Hpre].
    destruct (String.eqb_spec (http.URL_Path req) (Endpoint u)) as [E|_];
      [by symmetry in E|].
    rewrite IH by done. f_equal. lia.
Qed.

Lemma handle_no_route (g : Globals) resw req elapsed :
  Forall (λ u, Endpoint u ≠ http.URL_Path req) (routes g) →
  handle g resw req elapsed = Some (not_found g resw).
Proof.
  intros Hall. unfold handle.
  rewrite <- (app_nil_r (routes g)). by rewrite handle_routes_skip.
Qed.

Lemma handle_first_match (g : Globals) pre v post resw req elapsed :
  routes g = pre ++ v :: post →
  Forall (λ u, Endpoint u ≠ http.URL_Path req) pre →
  Endpoint v = http.URL_Path req →
  handle g resw req elapsed = handle_route g (length pre) v resw req elapsed.
Proof.
  intros Hrs Hpre Hv. unfold handle. rewrite Hrs, handle_routes_skip by done.
  simpl. by rewrite Hv, String.eqb_refl.
Qed.

Lemma handle_route_mismatch (g : Globals) i v resw req elapsed :
  Method v ≠ http.Method req →
  handle_route g i v resw req elapsed = Some (not_found g resw).
Proof.
  intros Hm. unfold handle_route.
  by destruct (String.eqb_spec (http.Method req) (Method v)) as [E|_];
    [symmetry in E|].
Qed.

(** What the loop body comes to when the route's endpoint is the request
    path and the methods agree. *)
Lemma handle_route_dispatch (g : Globals) i v resw req elapsed :
  Endpoint v = http.URL_Path req →
  Method v = http.Method req →
  handle_route g i v resw req elapsed =
    let names := paramExtractAlg (Endpoint v) in
    let '(rqbody, resw', evs) :=
      run_middlewares (middlewares g) 0 (blank (bind_params names names ∅))
        resw req in
    match optimize g i v elapsed with
    | None => None
    | Some g' =>
        Some {| globals := g'; resw := resw';
                trace := evs ++ [if Mode v then GoHandler i rqbody
                                 else CallHandler i rqbody];
                context := if Mode v then None else Some (HandlerF v rqbody) |}
    end.
Proof.
  intros Hv Hm. unfold handle_route.
  rewrite <- Hm, String.eqb_refl, <- Hv, extractParams_same.
  cbv zeta. cbn [JsonData Params Claims]. rewrite Read_nil. unfold blank.
  destruct (run_middlewares _ _ _ _ _) as [[rb w] evs].
  destruct (Mode v); simpl; by destruct (optimize g i v elapsed).
Qed.

Lemma handle_routes_trace (g : Globals) rs resw req elapsed :
  ∀ i out,
  handle_routes g rs i resw req elapsed = Some out →
  trace out = [EvWriteHeader http.StatusNotFound]
  ∨ forallb is_call (trace out) = true.
Proof.
  induction rs as [|v rs IH]; intros i out Hout; simpl in Hout.
  - injection Hout as <-. by left.
  - destruct (String.eqb_spec (http.URL_Path req) (Endpoint v)) as [E|_];
      [|by eapply IH].
    destruct (decide (Method v = http.Method req)) as [Hm|Hm].
    + rewrite handle_route_dispatch in Hout by done. simpl in Hout.
      pose proof (run_middlewares_calls (middlewares g) 0
        (blank (bind_params (paramExtractAlg (Endpoint v))
                  (paramExtractAlg (Endpoint v)) ∅)) resw req) as Hevs.
      destruct (run_middlewares _ _ _ _ _) as [[rb w] evs].
      destruct (optimize g i v elapsed); [|done].
      injection Hout as <-. right. simpl in *.
      rewrite forallb_app, Hevs. by destruct (Mode v).
    + rewrite handle_route_mismatch in Hout by done.
      injection Hout as <-. by left.
Qed.

Lemma routes_cases (rs : list RouteInfo) (path : string) :
  Forall (λ u, Endpoint u ≠ path) rs
  ∨ ∃ pre v post, rs = pre ++ v :: post
      ∧ Forall (λ u, Endpoint u ≠ path) pre ∧ Endpoint v = path.
Proof.
  induction rs as [|u rs IH]; [by left|].
  destruct (decide (Endpoint u = path)) as [E|E].
  - right. by exists [], u, rs.
  - destruct IH as [IH|(pre & v & post & -> & Hpre & Hv)].
    + left. by constructor.
    + right. exists (u :: pre), v, post. split; [done|]. split; [|done].
      by constructor.
Qed.

Lemma handle_dispatch_globals (g : Globals) pre v post resw req elapsed :
  routes g = pre ++ v :: post →
  Forall (λ u, Endpoint u ≠ http.URL_Path req) pre →
  Endpoint v = http.URL_Path req →
  Method v = http.Method req →
  globals <$> handle g resw req elapsed = optimize g (length pre) v elapsed.
Proof.
  intros Hrs Hpre Hv Hm.
  rewrite (handle_first_match g pre v post) by done.
  rewrite handle_route_dispatch by done. simpl.
  destruct (run_middlewares _ _ _ _ _) as [[rb w] evs].
  by destruct (optimize g (length pre) v elapsed).
Qed.

(** Every call of [handle] either answers 404 and leaves the package
    variables alone, or runs the counter block for the first route whose
    endpoint is the request path. *)
Lemma handle_globals (g : Globals) resw req elapsed :
  handle g resw req elapsed = Some (not_found g resw)
  ∨ ∃ pre v post, routes g = pre ++ v :: post
      ∧ globals <$> handle g resw req elapsed = optimize g (length pre) v elapsed.
Proof.
  destruct (routes_cases (routes g) (http.URL_Path req))
    as [Hall|(pre & v & post & Hrs & Hpre & Hv)].
  - left. by apply handle_no_route.
  - destruct (decide (Method v = http.Method req)) as [Hm|Hm].
    + right. exists pre, v, post. split; [done|].
      by apply (handle_dispatch_globals g pre v post).
    + left. rewrite (handle_first_match g pre v post) by done.
      by apply handle_route_mismatch.
Qed.

(** *** The counter block *)

Lemma wrap64_id (z : Z) : - 2 ^ 63 <= z < 2 ^ 63 → wrap64 z = z.
Proof. intros Hz. unfold wrap64. rewrite Z.mod_small; lia. Qed.

(** The block changes the route table in one way only: the route it was
    called for may become Async. *)
Lemma optimize_routes (g g' : Globals) i v elapsed :
  optimize g i v elapsed = Some g' →
  (routes g' = routes g ∨ routes g' = <[i := set_Mode Async v]> (routes g))
  ∧ middlewares g' = middlewares g ∧ RoutePrefix g' = RoutePrefix g
  ∧ resetAt g' = resetAt g ∧ startOptimizeAt g' = startOptimizeAt g.
Proof.
  unfold optimize. intros H.
  destruct (div64 _ _) as [q|]; [|done]. injection H as <-.
  destruct ((totalRequest g =? resetAt g) || (avarageResMs g =? resetAt g));
    simpl;
    match goal with |- context [if ?c then _ else _] => destruct c end;
    simpl; auto.
Qed.

(** Away from the reset ceiling and from the end of the [int64] range the
    block adds one to the count and the truncated quotient to the average,
    and promotes exactly when its three-part test holds. *)
Lemma optimize_steady (g : Globals) i v elapsed :
  totalRequest g ≠ resetAt g → avarageResMs g ≠ resetAt g →
  0 <= totalRequest g < 2 ^ 63 - 1 →
  ∃ g', optimize g i v elapsed = Some g'
    ∧ totalRequest g' = totalRequest g + 1
    ∧ avarageResMs g'
      = wrap64 (avarageResMs g + wrap64 (elapsed ÷ (totalRequest g + 1)))
    ∧ routes g' =
        if (totalRequest g >? startOptimizeAt g) && (elapsed >? avarageResMs g)
           && negb (Bool.eqb (Mode v) Async)
        then <[i := set_Mode Async v]> (routes g) else routes g.
Proof.
  intros Ht Ha Hr. unfold optimize.
  apply Z.eqb_neq in Ht, Ha. rewrite Ht, Ha. simpl.
  set (c := (totalRequest g >? startOptimizeAt g) && _ && _).
  assert (Hw : wrap64 (totalRequest g + 1) = totalRequest g + 1)
    by (apply wrap64_id; lia).
  destruct c; simpl; rewrite Hw; unfold div64;
    (destruct (Z.eqb_spec (totalRequest g + 1) 0) as [E|_]; [lia|]);
    eexists; split; try reflexivity; simpl; auto.
Qed.

(** With the count at or below the threshold the block never promotes,
    whatever the latency and whether or not it resets the counters. *)
Lemma optimize_below_threshold (g : Globals) i v elapsed :
  0 <= totalRequest g <= startOptimizeAt g → startOptimizeAt g < 2 ^ 63 - 1 →
  ∃ g', optimize g i v elapsed = Some g'
    ∧ routes g' = routes g
    ∧ 0 <= totalRequest g' <= totalRequest g + 1
    ∧ startOptimizeAt g' = startOptimizeAt g.
Proof.
  intros Ht Hs. unfold optimize.
  destruct ((totalRequest g =? resetAt g) || (avarageResMs g =? resetAt g));
    simpl.
  - destruct (Z.gtb_spec 0 (startOptimizeAt g)) as [E|_]; [lia|]. simpl.
    change (wrap64 (0 + 1)) with 1.
    eexists. split; [reflexivity|]. simpl. repeat split; auto; lia.
  - destruct (Z.gtb_spec (totalRequest g) (startOptimizeAt g)) as [E|_]; [lia|].
    simpl. rewrite (wrap64_id (totalRequest g + 1)) by lia. unfold div64.
    destruct (Z.eqb_spec (totalRequest g + 1) 0) as [E|_]; [lia|].
    eexists. split; [reflexivity|]. simpl. repeat split; auto; lia.
Qed.

(** *** Sequences of requests *)

Lemma serve_below_threshold (reqs : list (http.Request * Z)) : ∀ g : Globals,
  0 <= totalRequest g →
  totalRequest g + Z.of_nat (length reqs) <= startOptimizeAt g + 1 →
  startOptimizeAt g < 2 ^ 63 - 1 →
  ∃ g', serve g reqs = Some g' ∧ routes g' = routes g.
Proof.
  induction reqs as [|[req elapsed] reqs IH]; intros g Ht Hlen Hs; simpl.
  - by exists g.
  - rewrite length_cons in Hlen.
    destruct (handle_globals g http.fresh req elapsed)
      as [Hnf|(pre & v & post & Hrs & Hopt)].
    + rewrite Hnf. simpl. apply IH; [done|lia|done].
    + destruct (optimize_below_threshold g (length pre) v elapsed)
        as (g1 & Hg1 & Hr1 & Ht1 & Hs1); [lia|done|].
      rewrite Hg1 in Hopt.
      destruct (handle g http.fresh req elapsed) as [out|]; [|done].
      injection Hopt as Hout. rewrite Hout.
      destruct (IH g1) as (g' & Hg' & Hr'); [lia|lia|lia|].
      exists g'. split; [done|]. by rewrite Hr'.
Qed.

Lemma handle_async_stays (g : Globals) resw req elapsed out (j : nat) u :
  handle g resw req elapsed = Some out →
  routes g !! j = Some u → Mode u = Async →
  ∃ u', routes (globals out) !! j = Some u' ∧ Mode u' = Async.
Proof.
  intros Hout Hj Hu.
  destruct (handle_globals g resw req elapsed)
    as [Hnf|(pre & v & post & Hrs & Hopt)].
  - rewrite Hnf in Hout. injection Hout as <-. by exists u.
  - rewrite Hout in Hopt. simpl in Hopt. symmetry in Hopt.
    apply optimize_routes in Hopt as ([Hr|Hr] & _); rewrite Hr.
    + by exists u.
    + destruct (decide (j = length pre)) as [->|Hne].
      * exists (set_Mode Async v). split; [|done].
        apply list_lookup_insert_eq. by eapply lookup_lt_Some.
      * exists u. by rewrite list_lookup_insert_ne.
Qed.

Lemma serve_async_stays (reqs : list (http.Request * Z)) :
  ∀ (g g' : Globals) (j : nat) u,
  serve g reqs = Some g' →
  routes g !! j = Some u → Mode u = Async →
  ∃ u', routes g' !! j = Some u' ∧ Mode u' = Async.
Proof.
  induction reqs as [|[req elapsed] reqs IH]; intros g g' j u Hs Hj Hu;
    simpl in Hs.
  - injection Hs as <-. by exists u.
  - destruct (handle g http.fresh req elapsed) as [out|] eqn:Hout; [|done].
    destruct (handle_async_stays _ _ _ _ _ _ _ Hout Hj Hu) as (u1 & Hj1 & Hu1).
    by eapply IH.
Qed.

Lemma quot_bounds (e n : Z) : 0 <= e → 0 < n → 0 <= e ÷ n <= e.
Proof.
  intros He Hn. rewrite Z.quot_div_nonneg by lia. split.
  - apply Z.div_pos; lia.
  - apply Z.div_le_upper_bound; nia.
Qed.

Lemma insert_route (pre post : list RouteInfo) v v' :
  <[length pre := v']> (pre ++ v :: post) = pre ++ v' :: post.
Proof.
  rewrite insert_app_r_alt by lia. by rewrite Nat.sub_diag.
Qed.

(** As long as the latencies are small and the reset ceiling is far, the
    counters of the code follow the recurrence of the specification, for
    requests that all reach the same route. *)
Lemma serve_counters (pre post : list RouteInfo) (req : http.Request) (es : list Z) :
  ∀ (g : Globals) v,
  routes g = pre ++ v :: post →
  Forall (λ u, Endpoint u ≠ http.URL_Path req) pre →
  Endpoint v = http.URL_Path req → Method v = http.Method req →
  resetAt g = resetAt init →
  0 <= totalRequest g → 0 <= avarageResMs g →
  Forall (λ e, 0 <= e < 2 ^ 32) es →
  totalRequest g + Z.of_nat (length es) < 2 ^ 30 →
  avarageResMs g + Z.of_nat (length es) * 2 ^ 32 < 2 ^ 62 →
  ∃ g', serve g (map (pair req) es) = Some g'
    ∧ (avarageResMs g', totalRequest g')
      = fold_left running_average_step es (avarageResMs g, totalRequest g)
    ∧ startOptimizeAt g' = startOptimizeAt g
    ∧ resetAt g' = resetAt g
    ∧ (routes g' = routes g ∨ routes g' = pre ++ set_Mode Async v :: post).
Proof.
  induction es as [|e es IH]; intros g v Hrs Hpre Hv Hm HR Ht Ha Hes Hn Hb.
  - exists g. simpl. repeat split; auto.
  - apply Forall_cons in Hes as [He Hes]. rewrite length_cons in Hn, Hb.
    simpl.
    pose proof (handle_dispatch_globals g pre v post http.fresh req e
                  Hrs Hpre Hv Hm) as Hopt.
    assert (HRv : resetAt g = 9223372036054775807) by (by rewrite HR).
    destruct (optimize_steady g (length pre) v e)
      as (g1 & Hg1 & Ht1 & Ha1 & Hr1); [lia..|].
    pose proof (quot_bounds e (totalRequest g + 1)) as Hq.
    rewrite (wrap64_id (e ÷ _)) in Ha1 by lia.
    rewrite wrap64_id in Ha1 by lia.
    rewrite Hg1 in Hopt.
    destruct (handle g http.fresh req e) as [out|]; [|done].
    injection Hopt as Hout. rewrite Hout.
    destruct (optimize_routes _ _ _ _ _ Hg1) as (_ & _ & _ & HR1 & Hs1).
    assert (Hrs1 : ∃ v1, routes g1 = pre ++ v1 :: post
                     ∧ Endpoint v1 = http.URL_Path req
                     ∧ Method v1 = http.Method req
                     ∧ (v1 = v ∨ v1 = set_Mode Async v)).
    { rewrite Hr1. destruct (_ && _ && _).
      - exists (set_Mode Async v). rewrite Hrs, insert_route. auto.
      - exists v. auto. }
    destruct Hrs1 as (v1 & Hrs1 & Hv1 & Hm1 & Hv1').
    destruct (IH g1 v1) as (g' & Hg' & Hc' & Hs' & HR' & Hr');
      [done|done|done|done|congruence|lia|lia|done|lia|lia|].
    exists g'. split; [done|]. split; [|split; [congruence|split; [congruence|]]].
    + rewrite Hc', Ha1, Ht1. reflexivity.
    + rewrite Hrs. rewrite Hrs1 in Hr'.
      destruct Hr' as [Hr'|Hr'], Hv1' as [->| ->]; rewrite Hr'; auto.
Qed.

End adaptive.

(** ** The dispatcher of the plain variant *)

Section plain.
Import Plain.

Lemma plain_run_middlewares_calls (ms : list MiddlewareFunc) :
  ∀ k rqbody resw req,
  forallb is_call (run_middlewares ms k rqbody resw req).2 = true.
Proof.
  induction ms as [|m ms IH]; intros k rqbody resw req; simpl; [done|].
  destruct (m rqbody resw req) as [rb' w'].
  specialize (IH (S k) rb' w' req).
  destruct (run_middlewares ms (S k) rb' w' req) as [[rb'' w''] evs].
  simpl in *. done.
Qed.

Lemma plain_handle_routes_skip (g : Globals) (pre rs : list RouteInfo) resw req :
  ∀ i,
  Forall (λ u, Endpoint u ≠ http.URL_Path req) pre →
  handle_routes g (pre ++ rs) i resw req
  = handle_routes g rs (i + length pre) resw req.
Proof.
  induction pre as [|u pre IH]; intros i Hpre; simpl.
  - by rewrite Nat.add_0_r.
  - apply Forall_cons in Hpre as [Hu Hpre].
    destruct (String.eqb_spec (http.URL_Path req) (Endpoint u)) as [E|_];
      [by symmetry in E|].
    rewrite IH by done. f_equal. lia.
Qed.

Lemma plain_handle_no_route (g : Globals) resw req :
  Forall (λ u, Endpoint u ≠ http.URL_Path req) (routes g) →
  handle g resw req = not_found resw.
Proof.
  intros Hall. unfold handle.
  rewrite <- (app_nil_r (routes g)). by rewrite plain_handle_routes_skip.
Qed.

Lemma plain_handle_first_match (g : Globals) pre v post resw req :
  routes g = pre ++ v :: post →
  Forall (λ u, Endpoint u ≠ http.URL_Path req) pre →
  Endpoint v = http.URL_Path req →
  handle g resw req = handle_route g (length pre) v resw req.
Proof.
  intros Hrs Hpre Hv. unfold handle.
  rewrite Hrs, plain_handle_routes_skip by done.
  simpl. by rewrite Hv, String.eqb_refl.
Qed.

Lemma plain_handle_route_mismatch (g : Globals) i v resw req :
  Method v ≠ http.Method req →
  handle_route g i v resw req = not_found resw.
Proof.
  intros Hm. unfold handle_route.
  by destruct (String.eqb_spec (http.Method req) (Method v)) as [E|_];
    [symmetry in E|].
Qed.

Lemma plain_handle_route_dispatch (g : Globals) i v resw req :
  Endpoint v = http.URL_Path req →
  Method v = http.Method req →
  handle_route g i v resw req =
    let names := paramExtractAlg (Endpoint v) in
    let '(rqbody, resw', evs) :=
      run_middlewares (middlewares g) 0
        (blank' (bind_params names names ∅) false) resw req in
    let rqbody := {| JsonData := JsonData rqbody; Params := Params rqbody;
                     Claims := Claims rqbody; ResponseW := true |} in
    {| resw := (HandlerF v rqbody resw').2;
       trace := evs ++ [CallHandler i rqbody];
       context := Some (HandlerF v rqbody resw').1 |}.
Proof.
  intros Hv Hm. unfold handle_route.
  rewrite <- Hm, String.eqb_refl, <- Hv, extractParams_same.
  cbv zeta. cbn [JsonData Params Claims ResponseW].
  rewrite Read_nil. unfold blank'.
  destruct (run_middlewares _ _ _ _ _) as [[rb w] evs].
  cbn [JsonData Params Claims ResponseW].
  by destruct (HandlerF v _ w).
Qed.

Lemma plain_handle_routes_trace (g : Globals) rs resw req :
  ∀ i,
  trace (handle_routes g rs i resw req) = [EvWriteHeader http.StatusNotFound]
  ∨ forallb is_call (trace (handle_routes g rs i resw req)) = true.
Proof.
  induction rs as [|v rs IH]; intros i; simpl; [by left|].
  destruct (String.eqb_spec (http.URL_Path req) (Endpoint v)) as [E|_];
    [|apply IH].
  destruct (decide (Method v = http.Method req)) as [Hm|Hm].
  - rewrite plain_handle_route_dispatch by done. simpl.
    pose proof (plain_run_middlewares_calls (middlewares g) 0
      (blank' (bind_params (paramExtractAlg (Endpoint v))
                 (paramExtractAlg (Endpoint v)) ∅) false) resw req) as Hevs.
    destruct (run_middlewares _ _ _ _ _) as [[rb w] evs].
    right. simpl in *. by rewrite forallb_app, Hevs.
  - rewrite plain_handle_route_mismatch by done. by left.
Qed.

End plain.

(** ** Route resolution and the boundary responses *)

(** C1, at the scenario's input.  With [GET /api/users/{id}] as the only
    route, the request [GET /api/users/42] is answered 404 with an empty
    body in both variants and no handler is called or launched: the
    dispatcher compares the request path with the endpoint text, braces
    included.  The matcher itself would reject the pair as well, the scan
    of a path without braces being empty. *)
Theorem users_42_is_answered_404 (mode : Adaptive.HandlingMode)
    (f : Adaptive.Handler) (f' : Plain.Handler) (elapsed : Z) :
  Adaptive.handle (users_app mode f) http.fresh (GET "/api/users/42") elapsed
  = Some {| Adaptive.globals := users_app mode f;
            Adaptive.resw := answer_404;
            Adaptive.trace := [Adaptive.EvWriteHeader 404];
            Adaptive.context := None |}
  ∧ Plain.handle (users_app' f') http.fresh (GET "/api/users/42")
    = {| Plain.resw := answer_404;
         Plain.trace := [Plain.EvWriteHeader 404];
         Plain.context := None |}
  ∧ paramExtractAlg "/api/users/42" = []
  ∧ extractParams "/api/users/42" "/api/users/{id}"
    = (∅, Some invalid_URL_params).
Proof. repeat split; reflexivity. Qed.

(** C3.  A request whose path is no route's endpoint, and a request whose
    path is the endpoint of some route while the first such route in
    registration order has another method, receive the same outcome from a
    fresh writer: status 404, empty body, nothing called, the package
    variables untouched. *)
Theorem not_found_and_method_mismatch_answer_alike (g : Adaptive.Globals)
    (req : http.Request) (elapsed : Z) :
  Forall (λ u, Adaptive.Endpoint u ≠ http.URL_Path req) (Adaptive.routes g)
  ∨ (∃ pre v post,
       Adaptive.routes g = pre ++ v :: post
       ∧ Forall (λ u, Adaptive.Endpoint u ≠ http.URL_Path req) pre
       ∧ Adaptive.Endpoint v = http.URL_Path req
       ∧ Adaptive.Method v ≠ http.Method req) →
  Adaptive.handle g http.fresh req elapsed
  = Some {| Adaptive.globals := g;
            Adaptive.resw := answer_404;
            Adaptive.trace := [Adaptive.EvWriteHeader 404];
            Adaptive.context := None |}.
Proof.
  intros [Hall|(pre & v & post & Hrs & Hpre & Hv & Hm)].
  - by rewrite handle_no_route.
  - rewrite (handle_first_match g pre v post) by done.
    by rewrite handle_route_mismatch.
Qed.

Lemma not_found_and_method_mismatch_answer_alike_witness :
  Adaptive.handle (users_app Adaptive.Sync keep) http.fresh
    (GET "/api/nonexistent") 3
  = Adaptive.handle (users_app Adaptive.Sync keep) http.fresh
      {| http.Method := "DELETE"; http.URL_Path := "/api/users/{id}";
         http.Body := "" |} 3.
Proof.
  rewrite !not_found_and_method_mismatch_answer_alike; [reflexivity| |].
  - right. exists [], (Adaptive.Build_RouteInfo Adaptive.Sync "/api/users/{id}"
                         get false keep), [].
    repeat split; [constructor | discriminate].
  - left. repeat constructor. discriminate.
Defined.

(** C4.  When two routes share an endpoint, the earlier one being the first
    route with that endpoint, a request on that path whose method is the
    later route's and not the earlier one's is answered 404 in both
    variants; the trace holds that single write, so the later route's
    handler is neither called nor launched. *)
Theorem first_match_without_fallthrough :
  (∀ (g : Adaptive.Globals) pre r1 mid r2 post (req : http.Request) elapsed,
     Adaptive.routes g = pre ++ r1 :: mid ++ r2 :: post →
     Forall (λ u, Adaptive.Endpoint u ≠ http.URL_Path req) pre →
     Adaptive.Endpoint r1 = http.URL_Path req →
     Adaptive.Endpoint r2 = http.URL_Path req →
     Adaptive.Method r1 ≠ http.Method req →
     Adaptive.Method r2 = http.Method req →
     Adaptive.handle g http.fresh req elapsed
     = Some {| Adaptive.globals := g;
               Adaptive.resw := answer_404;
               Adaptive.trace := [Adaptive.EvWriteHeader 404];
               Adaptive.context := None |}) ∧
  (∀ (g : Plain.Globals) pre r1 mid r2 post (req : http.Request),
     Plain.routes g = pre ++ r1 :: mid ++ r2 :: post →
     Forall (λ u, Plain.Endpoint u ≠ http.URL_Path req) pre →
     Plain.Endpoint r1 = http.URL_Path req →
     Plain.Endpoint r2 = http.URL_Path req →
     Plain.Method r1 ≠ http.Method req →
     Plain.Method r2 = http.Method req →
     Plain.handle g http.fresh req
     = {| Plain.resw := answer_404;
          Plain.trace := [Plain.EvWriteHeader 404];
          Plain.context := None |}).
Proof.
  split.
  - intros g pre r1 mid r2 post req elapsed Hrs Hpre H1 _ Hm _.
    rewrite (handle_first_match g pre r1 (mid ++ r2 :: post)) by done.
    by rewrite handle_route_mismatch.
  - intros g pre r1 mid r2 post req Hrs Hpre H1 _ Hm _.
    rewrite (plain_handle_first_match g pre r1 (mid ++ r2 :: post)) by done.
    by rewrite plain_handle_route_mismatch.
Qed.

Lemma first_match_without_fallthrough_witness :
  Adaptive.trace <$> Adaptive.handle items_app http.fresh (GET "/api/items") 0
    = Some [Adaptive.EvWriteHeader 404]
  ∧ Plain.trace (Plain.handle items_app' http.fresh (GET "/api/items"))
    = [Plain.EvWriteHeader 404].
Proof.
  destruct first_match_without_fallthrough as [HA HP]. split.
  - rewrite (HA items_app []
               (Adaptive.Build_RouteInfo Adaptive.Sync "/api/items" post false keep)
               []
               (Adaptive.Build_RouteInfo Adaptive.Sync "/api/items" get false keep)
               []).
    all: try reflexivity; try constructor; try discriminate.
  - rewrite (HP items_app' []
               (Plain.Build_RouteInfo "/api/items" post false keep')
               []
               (Plain.Build_RouteInfo "/api/items" get false keep')
               []).
    all: try reflexivity; try constructor; try discriminate.
Defined.

(** C10.  The matcher never fails on a string paired with itself, and
    [handle] calls it only after the path and the endpoint compared equal:
    in both variants the dispatcher's own writes to the response are
    either the single [WriteHeader(404)] or none at all, so it never
    writes status 400 nor the error text. *)
Theorem bad_request_branch_is_dead :
  (∀ s : string, (extractParams s s).2 = None) ∧
  (∀ (g : Adaptive.Globals) resw req elapsed out,
     Adaptive.handle g resw req elapsed = Some out →
     (Adaptive.EvWriteHeader http.StatusBadRequest ∉ Adaptive.trace out)
     ∧ (∀ b, Adaptive.EvWrite b ∉ Adaptive.trace out)) ∧
  (∀ (g : Plain.Globals) resw req,
     (Plain.EvWriteHeader http.StatusBadRequest
        ∉ Plain.trace (Plain.handle g resw req))
     ∧ (∀ b, Plain.EvWrite b ∉ Plain.trace (Plain.handle g resw req))).
Proof.
  split; [|split].
  - intros s. by rewrite extractParams_same.
  - intros g resw req elapsed out Hout.
    apply handle_routes_trace in Hout as [Ht|Ht]; rewrite ?Ht.
    + split; [|intros b]; intros Hin; apply list_elem_of_singleton in Hin;
        discriminate.
    + split; [|intros b]; intros Hin; apply list_elem_of_In in Hin;
        by apply (proj1 (forallb_forall _ _) Ht) in Hin.
  - intros g resw req.
    destruct (plain_handle_routes_trace g (Plain.routes g) resw req 0%nat)
      as [Ht|Ht]; unfold Plain.handle; rewrite ?Ht.
    + split; [|intros b]; intros Hin; apply list_elem_of_singleton in Hin;
        discriminate.
    + split; [|intros b]; intros Hin; apply list_elem_of_In in Hin;
        by apply (proj1 (forallb_forall _ _) Ht) in Hin.
Qed.

Lemma bad_request_branch_is_dead_witness :
  Adaptive.EvWriteHeader http.StatusBadRequest
    ∉ [Adaptive.CallHandler 0 (blank {[ "id" := "id" ]})].
Proof.
  destruct bad_request_branch_is_dead as (_ & HA & _).
  apply (HA (users_app Adaptive.Sync keep) http.fresh
            (GET "/api/users/{id}") 0
            {| Adaptive.globals :=
                 Adaptive.set_counters 0 1 (users_app Adaptive.Sync keep);
               Adaptive.resw := http.fresh;
               Adaptive.trace :=
                 [Adaptive.CallHandler 0 (blank {[ "id" := "id" ]})];
               Adaptive.context := Some (blank {[ "id" := "id" ]}) |}).
  vm_compute. reflexivity.
Defined.

(** ** The request context *)

Lemma first_call_context (ms : list Adaptive.MiddlewareFunc) rb0 resw req
    (ev : Adaptive.RequestBody → Adaptive.Event) :
  (∀ rb, Adaptive.event_context (ev rb) = Some rb) →
  ∃ e, head ((Adaptive.run_middlewares ms 0 rb0 resw req).2
             ++ [ev (Adaptive.run_middlewares ms 0 rb0 resw req).1.1]) = Some e
       ∧ Adaptive.event_context e = Some rb0.
Proof.
  intros Hev. destruct ms as [|m ms]; simpl.
  - eexists. split; [reflexivity|]. apply Hev.
  - destruct (m rb0 resw req) as [rb' w'].
    destruct (Adaptive.run_middlewares ms 1 rb' w' req) as [[rb'' w''] evs].
    simpl. by eexists.
Qed.

Lemma plain_first_call_context (ms : list Plain.MiddlewareFunc) rb0 resw req i :
  ∃ e rb,
    head ((Plain.run_middlewares ms 0 rb0 resw req).2
          ++ [Plain.CallHandler i
                {| Plain.JsonData :=
                     Plain.JsonData (Plain.run_middlewares ms 0 rb0 resw req).1.1;
                   Plain.Params :=
                     Plain.Params (Plain.run_middlewares ms 0 rb0 resw req).1.1;
                   Plain.Claims :=
                     Plain.Claims (Plain.run_middlewares ms 0 rb0 resw req).1.1;
                   Plain.ResponseW := true |}]) = Some e
    ∧ Plain.event_context e = Some rb
    ∧ Plain.JsonData rb = Plain.JsonData rb0
    ∧ Plain.Params rb = Plain.Params rb0
    ∧ Plain.Claims rb = Plain.Claims rb0.
Proof.
  destruct ms as [|m ms]; simpl.
  - by eexists _, _.
  - destruct (m rb0 resw req) as [rb' w'].
    destruct (Plain.run_middlewares ms 1 rb' w' req) as [[rb'' w''] evs].
    simpl. by eexists _, _.
Qed.

(** C9, as the code has it.  In every dispatch that reaches the middleware
    chain, the first call into user code (the first middleware, or the
    handler when there is none) receives a context whose [JsonData] is
    empty whatever the request body is: [Read] is given the nil slice of
    the new context and so copies nothing.  The bindings are those of the
    matcher and the claims are empty. *)
Theorem context_never_holds_the_body :
  (∀ (g : Adaptive.Globals) pre v post resw (req : http.Request) elapsed out,
     Adaptive.routes g = pre ++ v :: post →
     Forall (λ u, Adaptive.Endpoint u ≠ http.URL_Path req) pre →
     Adaptive.Endpoint v = http.URL_Path req →
     Adaptive.Method v = http.Method req →
     Adaptive.handle g resw req elapsed = Some out →
     ∃ e rb, head (Adaptive.trace out) = Some e
       ∧ Adaptive.event_context e = Some rb
       ∧ Adaptive.JsonData rb = ""
       ∧ Adaptive.Params rb = (extractParams (http.URL_Path req) (Adaptive.Endpoint v)).1
       ∧ Adaptive.Claims rb = ∅) ∧
  (∀ (g : Plain.Globals) pre v post resw (req : http.Request),
     Plain.routes g = pre ++ v :: post →
     Forall (λ u, Plain.Endpoint u ≠ http.URL_Path req) pre →
     Plain.Endpoint v = http.URL_Path req →
     Plain.Method v = http.Method req →
     ∃ e rb, head (Plain.trace (Plain.handle g resw req)) = Some e
       ∧ Plain.event_context e = Some rb
       ∧ Plain.JsonData rb = ""
       ∧ Plain.Params rb = (extractParams (http.URL_Path req) (Plain.Endpoint v)).1
       ∧ Plain.Claims rb = ∅).
Proof.
  split.
  - intros g pre v post resw req elapsed out Hrs Hpre Hv Hm Hout.
    rewrite (handle_first_match g pre v post) in Hout by done.
    rewrite handle_route_dispatch in Hout by done. cbv zeta in Hout.
    set (rb0 := blank _) in Hout.
    destruct (first_call_context (Adaptive.middlewares g) rb0 resw req
      (λ rb, if Adaptive.Mode v then Adaptive.GoHandler (length pre) rb
             else Adaptive.CallHandler (length pre) rb)) as (e & He & Hc).
    { intros rb. by destruct (Adaptive.Mode v). }
    destruct (Adaptive.run_middlewares _ _ _ _ _) as [[rb w] evs].
    destruct (Adaptive.optimize _ _ _ _); [|done]. injection Hout as <-.
    exists e, rb0. simpl in *. repeat split; [done..|].
    by rewrite <- Hv, extractParams_same.
  - intros g pre v post resw req Hrs Hpre Hv Hm.
    rewrite (plain_handle_first_match g pre v post) by done.
    rewrite plain_handle_route_dispatch by done. cbv zeta.
    set (rb0 := blank' _ _).
    destruct (plain_first_call_context (Plain.middlewares g) rb0 resw req
                (length pre)) as (e & rb & He & Hc & Hj & Hp & Hcl).
    destruct (Plain.run_middlewares _ _ _ _ _) as [[rb1 w] evs].
    exists e, rb. simpl in *. repeat split; [done..| |done].
    by rewrite Hp, <- Hv, extractParams_same.
Qed.

Lemma context_never_holds_the_body_witness :
  ∃ e rb,
    head (Plain.trace (Plain.handle (echo_app' keep') http.fresh
                         (POST "/api/echo" "hi"))) = Some e
    ∧ Plain.event_context e = Some rb
    ∧ Plain.JsonData rb = ""
    ∧ Plain.Params rb = (extractParams "/api/echo" "/api/echo").1
    ∧ Plain.Claims rb = ∅.
Proof.
  destruct context_never_holds_the_body as [_ HP].
  apply (HP (echo_app' keep') []
            (Plain.Build_RouteInfo "/api/echo" post false keep') []).
  all: try reflexivity; constructor.
Defined.

(** The same at a request with a body.  [POST /api/echo] with the two bytes
    "hi", one route and no middleware: the handler is called with an empty
    [JsonData], in both variants. *)
Lemma echo_handler_sees_no_body (f : Adaptive.Handler) (f' : Plain.Handler)
    (elapsed : Z) :
  Adaptive.trace <$>
    Adaptive.handle (echo_app Adaptive.Sync f) http.fresh
      (POST "/api/echo" "hi") elapsed
  = Some [Adaptive.CallHandler 0
            {| Adaptive.JsonData := ""; Adaptive.Params := ∅;
               Adaptive.Claims := ∅ |}]
  ∧ Plain.trace (Plain.handle (echo_app' f') http.fresh (POST "/api/echo" "hi"))
    = [Plain.CallHandler 0
         {| Plain.JsonData := ""; Plain.Params := ∅; Plain.Claims := ∅;
            Plain.ResponseW := true |}].
Proof.
  split.
  - vm_compute. reflexivity.
  - unfold Plain.handle. simpl. unfold Plain.handle_route. simpl.
    by destruct (f' _ _).
Qed.

(** ** The latency counters and the promotion *)

Lemma running_average_fold_bounds (es : list Z) : ∀ a n,
  Forall (λ e, 0 <= e < 2 ^ 32) es → 0 <= n →
  (fold_left running_average_step es (a, n)).2 = n + Z.of_nat (length es)
  ∧ a <= (fold_left running_average_step es (a, n)).1
      <= a + Z.of_nat (length es) * 2 ^ 32.
Proof.
  induction es as [|e es IH]; intros a n Hes Hn; simpl.
  - lia.
  - apply Forall_cons in Hes as [He Hes].
    pose proof (quot_bounds e (n + 1)) as Hq.
    destruct (IH (a + e ÷ (n + 1)) (n + 1)) as [IHn IHa]; [done|lia|].
    unfold running_average_step at 2 4 6. simpl. lia.
Qed.

(** C7, as the code has it.  Whenever a request reaches the handler step,
    the counter block runs, whatever the mode of the route: away from the
    reset ceiling the count grows by one and the average by the truncated
    quotient.  For an Async route this happens right after the goroutine
    is launched, and the route table is left as it was; for a Sync route
    it happens after the inline call. *)
Theorem counters_are_recorded_in_both_modes (g : Adaptive.Globals)
    pre v post resw (req : http.Request) (elapsed : Z) :
  Adaptive.routes g = pre ++ v :: post →
  Forall (λ u, Adaptive.Endpoint u ≠ http.URL_Path req) pre →
  Adaptive.Endpoint v = http.URL_Path req →
  Adaptive.Method v = http.Method req →
  Adaptive.totalRequest g ≠ Adaptive.resetAt g →
  Adaptive.avarageResMs g ≠ Adaptive.resetAt g →
  0 <= Adaptive.totalRequest g < 2 ^ 63 - 1 →
  ∃ out rb,
    Adaptive.handle g resw req elapsed = Some out
    ∧ Adaptive.totalRequest (Adaptive.globals out) = Adaptive.totalRequest g + 1
    ∧ Adaptive.avarageResMs (Adaptive.globals out)
      = wrap64 (Adaptive.avarageResMs g
                + wrap64 (elapsed ÷ (Adaptive.totalRequest g + 1)))
    ∧ (Adaptive.Mode v = Adaptive.Async →
         last (Adaptive.trace out) = Some (Adaptive.GoHandler (length pre) rb)
         ∧ Adaptive.context out = None
         ∧ Adaptive.routes (Adaptive.globals out) = Adaptive.routes g)
    ∧ (Adaptive.Mode v = Adaptive.Sync →
         last (Adaptive.trace out) = Some (Adaptive.CallHandler (length pre) rb)
         ∧ Adaptive.context out = Some (Adaptive.HandlerF v rb)).
Proof.
  intros Hrs Hpre Hv Hm Ht Ha Hr.
  rewrite (handle_first_match g pre v post) by done.
  rewrite handle_route_dispatch by done. cbv zeta.
  destruct (Adaptive.run_middlewares _ _ _ _ _) as [[rb w] evs].
  destruct (optimize_steady g (length pre) v elapsed Ht Ha Hr)
    as (g' & Hg' & Ht' & Ha' & Hr').
  rewrite Hg'. eexists _, rb. split; [reflexivity|]. simpl.
  split; [done|]. split; [done|]. split; intros Hmode; rewrite Hmode in *.
  - rewrite last_snoc. split; [done|]. split; [done|].
    rewrite Hr'. simpl. by rewrite andb_false_r.
  - by rewrite last_snoc.
Qed.

Lemma counters_are_recorded_in_both_modes_witness :
  ∃ out rb,
    Adaptive.handle (work_app Adaptive.Async) http.fresh (GET "/api/work") 7
      = Some out
    ∧ Adaptive.totalRequest (Adaptive.globals out) = 0 + 1
    ∧ Adaptive.avarageResMs (Adaptive.globals out)
      = wrap64 (0 + wrap64 (7 ÷ (0 + 1)))
    ∧ (Adaptive.Mode (Adaptive.Build_RouteInfo Adaptive.Async "/api/work" get
                        false keep) = Adaptive.Async →
         last (Adaptive.trace out) = Some (Adaptive.GoHandler 0 rb)
         ∧ Adaptive.context out = None
         ∧ Adaptive.routes (Adaptive.globals out)
           = Adaptive.routes (work_app Adaptive.Async))
    ∧ (Adaptive.Mode (Adaptive.Build_RouteInfo Adaptive.Async "/api/work" get
                        false keep) = Adaptive.Sync →
         last (Adaptive.trace out) = Some (Adaptive.CallHandler 0 rb)
         ∧ Adaptive.context out = Some (keep rb)).
Proof.
  apply (counters_are_recorded_in_both_modes (work_app Adaptive.Async) []
           (Adaptive.Build_RouteInfo Adaptive.Async "/api/work" get false keep) []).
  - reflexivity.
  - constructor.
  - reflexivity.
  - reflexivity.
  - vm_compute. discriminate.
  - vm_compute. discriminate.
  - vm_compute. split; [discriminate | reflexivity].
Defined.

(** C7, as the claim states it, fails: one request to an Async route takes
    the counters from (0, 0) to an average of 7 and a count of 1, although
    the handler was only launched. *)
Lemma async_dispatch_changes_the_counters :
  Adaptive.totalRequest (work_app Adaptive.Async) = 0
  ∧ Adaptive.avarageResMs (work_app Adaptive.Async) = 0
  ∧ ∃ out,
      Adaptive.handle (work_app Adaptive.Async) http.fresh (GET "/api/work") 7
        = Some out
      ∧ Adaptive.trace out = [Adaptive.GoHandler 0 (blank ∅)]
      ∧ Adaptive.totalRequest (Adaptive.globals out) = 1
      ∧ Adaptive.avarageResMs (Adaptive.globals out) = 7.
Proof.
  split; [reflexivity|]. split; [reflexivity|].
  eexists. split; [vm_compute; reflexivity|]. by vm_compute.
Qed.

(** C6.  One run of the counter block, away from the reset ceiling,
    increments the count and then adds to the average the latency divided
    by the new count, truncated toward zero (in 64-bit arithmetic).  For
    requests that reach one route, with latencies below 2^32 microseconds
    and the counters starting from zero, the two counters of the code are
    therefore those of the recurrence of the specification.  On the
    latencies 10, 20, 30 the recurrence gives 10/1 + 20/2 + 30/3 = 30 with
    a count of 3, where the arithmetic mean is 20. *)
Theorem running_average_is_the_truncating_recurrence :
  (∀ (g : Adaptive.Globals) (i : nat) v (elapsed : Z),
     Adaptive.totalRequest g ≠ Adaptive.resetAt g →
     Adaptive.avarageResMs g ≠ Adaptive.resetAt g →
     0 <= Adaptive.totalRequest g < 2 ^ 63 - 1 →
     ∃ g', Adaptive.optimize g i v elapsed = Some g'
       ∧ Adaptive.totalRequest g' = Adaptive.totalRequest g + 1
       ∧ Adaptive.avarageResMs g'
         = wrap64 (Adaptive.avarageResMs g
                   + wrap64 (elapsed ÷ Adaptive.totalRequest g'))) ∧
  (∀ (g : Adaptive.Globals) pre v post (req : http.Request) (es : list Z),
     Adaptive.routes g = pre ++ v :: post →
     Forall (λ u, Adaptive.Endpoint u ≠ http.URL_Path req) pre →
     Adaptive.Endpoint v = http.URL_Path req →
     Adaptive.Method v = http.Method req →
     Adaptive.resetAt g = Adaptive.resetAt Adaptive.init →
     Adaptive.totalRequest g = 0 → Adaptive.avarageResMs g = 0 →
     Forall (λ e, 0 <= e < 2 ^ 32) es →
     Z.of_nat (length es) < 2 ^ 29 →
     ∃ g', Adaptive.serve g (map (pair req) es) = Some g'
       ∧ (Adaptive.avarageResMs g', Adaptive.totalRequest g')
         = running_average es) ∧
  running_average [10; 20; 30] = (30, 3) ∧
  true_mean [10; 20; 30] = 20.
Proof.
  split; [|split; [|split; reflexivity]].
  - intros g i v elapsed Ht Ha Hr.
    destruct (optimize_steady g i v elapsed Ht Ha Hr) as (g' & Hg' & Ht' & Ha' & _).
    exists g'. by rewrite Ht'.
  - intros g pre v post req es Hrs Hpre Hv Hm HR Ht Ha Hes Hlen.
    destruct (serve_counters pre post req es g v) as (g' & Hg' & Hc & _);
      [done|done|done|done|done|lia|lia|done|lia|lia|].
    exists g'. split; [done|]. by rewrite Hc, Ht, Ha.
Qed.

Lemma running_average_is_the_truncating_recurrence_witness :
  ∃ g', Adaptive.serve (work_app Adaptive.Sync)
          (map (pair (GET "/api/work")) [10; 20; 30]) = Some g'
    ∧ (Adaptive.avarageResMs g', Adaptive.totalRequest g')
      = running_average [10; 20; 30].
Proof.
  destruct running_average_is_the_truncating_recurrence as (_ & H & _).
  apply (H (work_app Adaptive.Sync) []
           (Adaptive.Build_RouteInfo Adaptive.Sync "/api/work" get false keep) []).
  - reflexivity.
  - constructor.
  - reflexivity.
  - reflexivity.
  - reflexivity.
  - reflexivity.
  - reflexivity.
  - repeat constructor; discriminate.
  - reflexivity.
Defined.

(** The counters after 10, 20, 30, by running the dispatcher. *)
Lemma serve_10_20_30 (mode : Adaptive.HandlingMode) :
  (λ g, (Adaptive.avarageResMs g, Adaptive.totalRequest g)) <$>
    Adaptive.serve (work_app mode) (map (pair (GET "/api/work")) [10; 20; 30])
  = Some (30, 3).
Proof. destruct mode; vm_compute; reflexivity. Qed.

(** C5, as the code has it.  The promotion test reads the count before the
    current request is counted.  So with the threshold at 5 and the count
    starting from zero the route table is unchanged after any six
    requests; when the six go to one Sync route with latencies below 2^32
    and the seventh request's latency exceeds the running average, the
    seventh request makes the route Async; and a route that is Async
    stays Async through every later request. *)
Theorem promotion_needs_the_count_above_the_threshold :
  (∀ (g : Adaptive.Globals) (reqs : list (http.Request * Z)),
     Adaptive.totalRequest g = 0 → Adaptive.startOptimizeAt g = 5 →
     length reqs = 6%nat →
     ∃ g', Adaptive.serve g reqs = Some g'
       ∧ Adaptive.routes g' = Adaptive.routes g) ∧
  (∀ (g : Adaptive.Globals) pre v post (req : http.Request) (es : list Z) (e7 : Z),
     Adaptive.routes g = pre ++ v :: post →
     Forall (λ u, Adaptive.Endpoint u ≠ http.URL_Path req) pre →
     Adaptive.Endpoint v = http.URL_Path req →
     Adaptive.Method v = http.Method req →
     Adaptive.Mode v = Adaptive.Sync →
     Adaptive.startOptimizeAt g = 5 →
     Adaptive.resetAt g = Adaptive.resetAt Adaptive.init →
     Adaptive.totalRequest g = 0 → Adaptive.avarageResMs g = 0 →
     length es = 6%nat → Forall (λ e, 0 <= e < 2 ^ 32) es →
     (running_average es).1 < e7 →
     ∃ g6 g7,
       Adaptive.serve g (map (pair req) es) = Some g6
       ∧ Adaptive.routes g6 = pre ++ v :: post
       ∧ Adaptive.avarageResMs g6 = (running_average es).1
       ∧ Adaptive.serve g6 [(req, e7)] = Some g7
       ∧ Adaptive.routes g7 = pre ++ Adaptive.set_Mode Adaptive.Async v :: post) ∧
  (∀ (g g' : Adaptive.Globals) (reqs : list (http.Request * Z)) (j : nat) u,
     Adaptive.serve g reqs = Some g' →
     Adaptive.routes g !! j = Some u → Adaptive.Mode u = Adaptive.Async →
     ∃ u', Adaptive.routes g' !! j = Some u'
       ∧ Adaptive.Mode u' = Adaptive.Async).
Proof.
  split; [|split].
  - intros g reqs Ht Hs Hlen. apply serve_below_threshold; lia.
  - intros g pre v post req es e7 Hrs Hpre Hv Hm Hmode Hs HR Ht Ha Hlen Hes He7.
    destruct (serve_counters pre post req es g v) as (g6 & Hg6 & Hc & Hs6 & HR6 & _);
      [done|done|done|done|done|lia|lia|done|lia|lia|].
    destruct (serve_below_threshold (map (pair req) es) g) as (g6' & Hg6' & Hr6);
      [lia|rewrite length_map; lia|lia|].
    rewrite Hg6 in Hg6'. injection Hg6' as <-.
    rewrite Ht, Ha in Hc. fold (running_average es) in Hc.
    pose proof (running_average_fold_bounds es 0 0 Hes ltac:(lia)) as [Hn6 Ha6].
    fold (running_average es) in Hn6, Ha6.
    assert (Ht6 : Adaptive.totalRequest g6 = 6)
      by (rewrite <- Hc in Hn6; simpl in Hn6; lia).
    assert (Ha6' : Adaptive.avarageResMs g6 = (running_average es).1)
      by (by rewrite <- Hc).
    rewrite Hrs in Hr6.
    exists g6. 
    destruct (optimize_steady g6 (length pre) v e7) as (g7 & Hg7 & _ & _ & Hr7);
      [rewrite HR6, HR; simpl; lia..|lia|].
    exists g7. split; [done|]. split; [done|]. split; [done|]. split.
    + simpl.
      pose proof (handle_dispatch_globals g6 pre v post http.fresh req e7
                    Hr6 Hpre Hv Hm) as Hopt.
      rewrite Hg7 in Hopt.
      destruct (Adaptive.handle g6 http.fresh req e7) as [out|]; [|done].
      by injection Hopt as ->.
    + rewrite Hr7, Ht6, Hs6, Hs, Ha6', Hmode, Hr6, insert_route.
      destruct (Z.gtb_spec e7 (running_average es).1) as [_|E]; [done|lia].
  - intros g g' reqs j u. apply serve_async_stays.
Qed.

Lemma promotion_needs_the_count_above_the_threshold_witness :
  ∃ g6 g7,
    Adaptive.serve (work_app Adaptive.Sync)
      (map (pair (GET "/api/work")) [10; 10; 10; 10; 10; 10]) = Some g6
    ∧ Adaptive.routes g6
      = [] ++ Adaptive.Build_RouteInfo Adaptive.Sync "/api/work" get false keep
           :: []
    ∧ Adaptive.avarageResMs g6 = (running_average [10; 10; 10; 10; 10; 10]).1
    ∧ Adaptive.serve g6 [(GET "/api/work", 1000)] = Some g7
    ∧ Adaptive.routes g7
      = [] ++ Adaptive.set_Mode Adaptive.Async
                (Adaptive.Build_RouteInfo Adaptive.Sync "/api/work" get false keep)
           :: [].
Proof.
  destruct promotion_needs_the_count_above_the_threshold as (_ & H & _).
  apply (H (work_app Adaptive.Sync) []
           (Adaptive.Build_RouteInfo Adaptive.Sync "/api/work" get false keep) []
           (GET "/api/work") [10; 10; 10; 10; 10; 10] 1000).
  - reflexivity.
  - constructor.
  - reflexivity.
  - reflexivity.
  - reflexivity.
  - reflexivity.
  - reflexivity.
  - reflexivity.
  - reflexivity.
  - reflexivity.
  - repeat constructor; discriminate.
  - reflexivity.
Defined.

(** C5, as the claim states it, fails.  Threshold 5, one Sync route, the
    counters at zero: after five requests of 10 microseconds the average
    is 22 and the count 5; a sixth request of 1000 microseconds, far above
    the average, is counted, and the route is still Sync. *)
Lemma sixth_slow_request_leaves_the_route_sync :
  ∃ g5 g6,
    Adaptive.serve (work_app Adaptive.Sync)
      (map (pair (GET "/api/work")) [10; 10; 10; 10; 10]) = Some g5
    ∧ Adaptive.totalRequest g5 = 5
    ∧ Adaptive.avarageResMs g5 = 22
    ∧ Adaptive.serve g5 [(GET "/api/work", 1000)] = Some g6
    ∧ Adaptive.totalRequest g6 = 6
    ∧ Adaptive.Mode <$> Adaptive.routes g6 !! 0%nat = Some Adaptive.Sync.
Proof.
  eexists _, _. split; [vm_compute; reflexivity|].
  split; [reflexivity|]. split; [reflexivity|].
  split; [vm_compute; reflexivity|].
  split; reflexivity.
Qed.

(** * Further properties of the code *)

(** ** The scanner and the matcher *)

Lemma paramExtractAlg_loop_length (s : string) : ∀ res buf,
  length (paramExtractAlg_loop s res buf) = (length res + count_close s)%nat.
Proof.
  induction s as [|c s IH]; intros res buf; simpl; [lia|].
  destruct (Ascii.eqb_spec c "{") as [->|_]; [by rewrite IH|].
  destruct (Ascii.eqb c "}"); rewrite IH; [|done].
  rewrite length_app. simpl. lia.
Qed.

(** X1.  The scan returns one token per [}] of its input, whatever else the
    input holds; in particular a string without [}] has no token. *)
Theorem paramExtractAlg_one_token_per_close (s : string) :
  length (paramExtractAlg s) = count_close s.
Proof. apply paramExtractAlg_loop_length. Qed.

Lemma brace_free_snoc (buf : string) (c : ascii) :
  brace_free buf = true → Ascii.eqb c "{" = false → Ascii.eqb c "}" = false →
  brace_free (buf +:+ String c "") = true.
Proof.
  intros Hb Ho Hc. induction buf as [|x buf IH].
  - rewrite append_nil_l. simpl. by rewrite Ho, Hc.
  - rewrite append_cons. simpl in *.
    apply andb_prop in Hb as [Hx Hb]. by rewrite Hx, IH.
Qed.

Lemma paramExtractAlg_loop_brace_free (s : string) : ∀ res buf,
  Forall (λ t, brace_free t = true) res → brace_free buf = true →
  Forall (λ t, brace_free t = true) (paramExtractAlg_loop s res buf).
Proof.
  induction s as [|c s IH]; intros res buf Hres Hbuf; simpl; [done|].
  destruct (Ascii.eqb c "{") eqn:Ho; [by apply IH|].
  destruct (Ascii.eqb c "}") eqn:Hc.
  - apply IH; [|done]. apply Forall_app. split; [done|]. by constructor.
  - apply IH; [done|]. by apply brace_free_snoc.
Qed.

(** X2.  No token the scan returns holds a brace. *)
Theorem paramExtractAlg_tokens_hold_no_brace (s : string) :
  Forall (λ t, brace_free t = true) (paramExtractAlg s).
Proof. by apply paramExtractAlg_loop_brace_free. Qed.

Lemma paramExtractAlg_loop_no_close (w : string) : ∀ res buf,
  brace_free w = true → paramExtractAlg_loop w res buf = res.
Proof.
  induction w as [|c w IH]; intros res buf Hw; simpl in *; [done|].
  apply andb_prop in Hw as [Hc Hw]. apply andb_prop in Hc as [Ho Hc].
  apply negb_true_iff in Ho, Hc. rewrite Ho, Hc. by apply IH.
Qed.

Lemma paramExtractAlg_loop_template (segs : list (string * string)) (tail : string) :
  ∀ res buf,
  Forall (λ seg, brace_free seg.1 = true ∧ brace_free seg.2 = true) segs →
  brace_free tail = true →
  paramExtractAlg_loop (render_template segs tail) res buf = res ++ map snd segs.
Proof.
  induction segs as [|[lit name] segs IH]; intros res buf Hsegs Htail; simpl.
  - rewrite app_nil_r. by apply paramExtractAlg_loop_no_close.
  - apply Forall_cons in Hsegs as [[Hlit Hname] Hsegs]. simpl in *.
    rewrite paramExtractAlg_loop_open, paramExtractAlg_loop_no_close by done.
    unfold paramExtractAlg.
    rewrite paramExtractAlg_loop_close by done.
    rewrite IH by done. by rewrite append_nil_l.
Qed.

(** X3.  On a template of well-formed UTF-8 text, made of literal text and
    placeholders none of which holds a brace, the scan returns exactly the
    placeholder names, in order. *)
Theorem paramExtractAlg_returns_the_names (segs : list (string * string))
    (tail : string) :
  valid_utf8 (render_template segs tail) = true →
  Forall (λ seg, brace_free seg.1 = true ∧ brace_free seg.2 = true) segs →
  brace_free tail = true →
  paramExtractAlg_runes (render_template segs tail) = map snd segs.
Proof.
  intros Hvalid Hsegs Htail. rewrite paramExtractAlg_runes_bytes by done.
  by apply paramExtractAlg_loop_template.
Qed.

Lemma paramExtractAlg_returns_the_names_witness :
  paramExtractAlg_runes
    (render_template
       [("/api/caf" +:+ bytes_string [0xC3; 0xA9]%N +:+ "s/", "shop");
        ("/items/", bytes_string [0xE2; 0x82; 0xAC]%N)] "/price")
  = ["shop"; bytes_string [0xE2; 0x82; 0xAC]%N].
Proof.
  apply (paramExtractAlg_returns_the_names
           [("/api/caf" +:+ bytes_string [0xC3; 0xA9]%N +:+ "s/", "shop");
            ("/items/", bytes_string [0xE2; 0x82; 0xAC]%N)] "/price").
  - reflexivity.
  - repeat constructor.
  - reflexivity.
Defined.

(** X4.  [extractParams] fails exactly when its two arguments hold different
    numbers of [}]; the text around the braces plays no part. *)
Theorem extractParams_fails_iff_close_counts_differ (path locPath : string) :
  (count_close path ≠ count_close locPath ↔
     extractParams path locPath = (∅, Some invalid_URL_params))
  ∧ (count_close path = count_close locPath ↔
       (extractParams path locPath).2 = None).
Proof.
  rewrite <- !paramExtractAlg_one_token_per_close. split; split.
  - apply extractParams_error.
  - intros Herr Heq. rewrite extractParams_ok in Herr by done. discriminate.
  - intros Heq. by rewrite extractParams_ok.
  - intros Hok.
    destruct (decide (length (paramExtractAlg path)
                      = length (paramExtractAlg locPath))) as [|Hne]; [done|].
    rewrite extractParams_error in Hok by done. discriminate.
Qed.

Lemma bind_params_self (l : list string) : ∀ (m : Parameters) name,
  name ∈ l → bind_params l l m !! name = Some name.
Proof.
  induction l as [|k l IH]; intros m name Hin; [by apply elem_of_nil in Hin|].
  simpl. destruct (decide (name ∈ l)) as [Hl|Hl]; [by apply IH|].
  apply elem_of_cons in Hin as [->|Hin]; [|done].
  rewrite bind_params_notin by done. apply lookup_insert_eq.
Qed.

(** X5.  When the path is the template itself, the only pair [handle] ever
    passes, the bindings send every placeholder name to that same name and
    hold nothing else. *)
Theorem extractParams_binds_names_to_themselves (s : string) (name : string) :
  (name ∈ paramExtractAlg s → (extractParams s s).1 !! name = Some name)
  ∧ (name ∉ paramExtractAlg s → (extractParams s s).1 !! name = None).
Proof.
  rewrite extractParams_same. simpl. split; intros Hin.
  - by apply bind_params_self.
  - by rewrite bind_params_notin.
Qed.

Lemma extractParams_binds_names_to_themselves_witness :
  (extractParams "/api/users/{id}" "/api/users/{id}").1 !! "id" = Some "id"
  ∧ (extractParams "/api/users/{id}" "/api/users/{id}").1 !! "name" = None.
Proof.
  split.
  - apply (extractParams_binds_names_to_themselves "/api/users/{id}" "id").
    vm_compute. apply list_elem_of_singleton. reflexivity.
  - apply (extractParams_binds_names_to_themselves "/api/users/{id}" "name").
    vm_compute. intros Hin. apply list_elem_of_singleton in Hin. discriminate.
Defined.

Lemma bind_params_dom (lp : list string) : ∀ (p : list string) (m : Parameters),
  length lp = length p →
  dom (bind_params lp p m) = list_to_set lp ∪ dom m.
Proof.
  induction lp as [|k lp IH]; intros p m Hlen; destruct p as [|v p];
    simpl in *; try discriminate.
  - by rewrite (left_id_L ∅ (∪)).
  - rewrite IH by lia. rewrite dom_insert_L.
    rewrite (comm_L (∪) {[k]} (list_to_set lp)).
    by rewrite (assoc_L (∪)).
Qed.

Lemma size_list_to_set_bound (l : list string) :
  (size (list_to_set l : gset string) <= length l)%nat.
Proof.
  induction l as [|k l IH].
  - rewrite list_to_set_nil, size_empty. simpl. lia.
  - rewrite list_to_set_cons, size_union_alt, size_singleton, length_cons.
    pose proof (subseteq_size (list_to_set l ∖ {[k]} : gset string)
                  (list_to_set l)) as Hsub.
    specialize (Hsub ltac:(apply subseteq_difference_l; done)). lia.
Qed.

(** X6.  On success the keys of the bindings are exactly the names scanned from
    the template, so there are at most as many bindings as placeholders. *)
Theorem extractParams_keys_are_the_template_names (path locPath : string) :
  (extractParams path locPath).2 = None →
  dom (extractParams path locPath).1 = list_to_set (paramExtractAlg locPath)
  ∧ (size (extractParams path locPath).1 <= length (paramExtractAlg locPath))%nat.
Proof.
  intros Hok.
  apply extractParams_fails_iff_close_counts_differ in Hok.
  rewrite <- !paramExtractAlg_one_token_per_close in Hok.
  rewrite extractParams_ok by done. simpl.
  assert (Hdom : dom (bind_params (paramExtractAlg locPath)
                        (paramExtractAlg path) ∅)
                 = list_to_set (paramExtractAlg locPath)).
  { rewrite bind_params_dom by done.
    by rewrite dom_empty_L, (right_id_L ∅ (∪)). }
  split; [done|].
  rewrite <- size_dom, Hdom. apply size_list_to_set_bound.
Qed.

Lemma extractParams_keys_are_the_template_names_witness :
  dom (extractParams "/{1}/{2}/{3}" "/{a}/{b}/{a}").1
    = list_to_set (paramExtractAlg "/{a}/{b}/{a}")
  ∧ (size (extractParams "/{1}/{2}/{3}" "/{a}/{b}/{a}").1
     <= length (paramExtractAlg "/{a}/{b}/{a}"))%nat.
Proof.
  apply (extractParams_keys_are_the_template_names "/{1}/{2}/{3}" "/{a}/{b}/{a}").
  reflexivity.
Defined.

(** ** The middleware chain *)

Section adaptive_chain.
Import Adaptive.

Lemma run_middlewares_app (ms1 ms2 : list MiddlewareFunc) : ∀ k rb w req,
  run_middlewares (ms1 ++ ms2) k rb w req =
    let '(rb1, w1, evs1) := run_middlewares ms1 k rb w req in
    let '(rb2, w2, evs2) :=
      run_middlewares ms2 (k + length ms1) rb1 w1 req in
    (rb2, w2, evs1 ++ evs2).
Proof.
  induction ms1 as [|m ms1 IH]; intros k rb w req; simpl.
  - rewrite Nat.add_0_r. by destruct (run_middlewares ms2 k rb w req) as [[? ?] ?].
  - destruct (m rb w req) as [rb' w']. rewrite IH.
    destruct (run_middlewares ms1 (S k) rb' w' req) as [[rb1 w1] evs1].
    replace (S k + length ms1)%nat with (k + S (length ms1))%nat by lia.
    by destruct (run_middlewares ms2 _ rb1 w1 req) as [[rb2 w2] evs2].
Qed.

Lemma run_middlewares_events (ms : list MiddlewareFunc) : ∀ k rb w req,
  length (run_middlewares ms k rb w req).2 = length ms
  ∧ ∀ j, (j < length ms)%nat →
      ∃ rbj, (run_middlewares ms k rb w req).2 !! j
             = Some (CallMiddleware (k + j) rbj).
Proof.
  induction ms as [|m ms IH]; intros k rb w req; simpl.
  - split; [done|]. intros j Hj. lia.
  - destruct (m rb w req) as [rb' w'].
    destruct (IH (S k) rb' w' req) as [Hlen Hev].
    destruct (run_middlewares ms (S k) rb' w' req) as [[rb'' w''] evs].
    simpl in *. split; [by rewrite Hlen|].
    intros [|j] Hj.
    + exists rb. by rewrite Nat.add_0_r.
    + destruct (Hev j) as [rbj Hrbj]; [lia|].
      exists rbj. simpl. rewrite Hrbj. do 2 f_equal. lia.
Qed.

End adaptive_chain.

Section plain_chain.
Import Plain.

Lemma plain_run_middlewares_app (ms1 ms2 : list MiddlewareFunc) : ∀ k rb w req,
  run_middlewares (ms1 ++ ms2) k rb w req =
    let '(rb1, w1, evs1) := run_middlewares ms1 k rb w req in
    let '(rb2, w2, evs2) :=
      run_middlewares ms2 (k + length ms1) rb1 w1 req in
    (rb2, w2, evs1 ++ evs2).
Proof.
  induction ms1 as [|m ms1 IH]; intros k rb w req; simpl.
  - rewrite Nat.add_0_r. by destruct (run_middlewares ms2 k rb w req) as [[? ?] ?].
  - destruct (m rb w req) as [rb' w']. rewrite IH.
    destruct (run_middlewares ms1 (S k) rb' w' req) as [[rb1 w1] evs1].
    replace (S k + length ms1)%nat with (k + S (length ms1))%nat by lia.
    by destruct (run_middlewares ms2 _ rb1 w1 req) as [[rb2 w2] evs2].
Qed.

Lemma plain_run_middlewares_events (ms : list MiddlewareFunc) : ∀ k rb w req,
  length (run_middlewares ms k rb w req).2 = length ms
  ∧ ∀ j, (j < length ms)%nat →
      ∃ rbj, (run_middlewares ms k rb w req).2 !! j
             = Some (CallMiddleware (k + j) rbj).
Proof.
  induction ms as [|m ms IH]; intros k rb w req; simpl.
  - split; [done|]. intros j Hj. lia.
  - destruct (m rb w req) as [rb' w'].
    destruct (IH (S k) rb' w' req) as [Hlen Hev].
    destruct (run_middlewares ms (S k) rb' w' req) as [[rb'' w''] evs].
    simpl in *. split; [by rewrite Hlen|].
    intros [|j] Hj.
    + exists rb. by rewrite Nat.add_0_r.
    + destruct (Hev j) as [rbj Hrbj]; [lia|].
      exists rbj. simpl. rewrite Hrbj. do 2 f_equal. lia.
Qed.

End plain_chain.

(** X7.  A request that reaches a route with the right method runs every
    registered middleware exactly once, in registration order, and only
    then the handler: the events are the N middleware calls numbered 0 to
    N-1 followed by the one handler call (or launch).  Both variants. *)
Theorem middlewares_run_once_in_order_before_the_handler :
  (∀ (g : Adaptive.Globals) pre v post resw (req : http.Request) elapsed out,
     Adaptive.routes g = pre ++ v :: post →
     Forall (λ u, Adaptive.Endpoint u ≠ http.URL_Path req) pre →
     Adaptive.Endpoint v = http.URL_Path req →
     Adaptive.Method v = http.Method req →
     Adaptive.handle g resw req elapsed = Some out →
     let N := length (Adaptive.middlewares g) in
     length (Adaptive.trace out) = S N
     ∧ (∀ j, (j < N)%nat →
          ∃ rb, Adaptive.trace out !! j = Some (Adaptive.CallMiddleware j rb))
     ∧ ∃ rb, Adaptive.trace out !! N
             = Some (if Adaptive.Mode v then Adaptive.GoHandler (length pre) rb
                     else Adaptive.CallHandler (length pre) rb)) ∧
  (∀ (g : Plain.Globals) pre v post resw (req : http.Request),
     Plain.routes g = pre ++ v :: post →
     Forall (λ u, Plain.Endpoint u ≠ http.URL_Path req) pre →
     Plain.Endpoint v = http.URL_Path req →
     Plain.Method v = http.Method req →
     let N := length (Plain.middlewares g) in
     let out := Plain.handle g resw req in
     length (Plain.trace out) = S N
     ∧ (∀ j, (j < N)%nat →
          ∃ rb, Plain.trace out !! j = Some (Plain.CallMiddleware j rb))
     ∧ ∃ rb, Plain.trace out !! N = Some (Plain.CallHandler (length pre) rb)
             ∧ Plain.ResponseW rb = true).
Proof.
  split.
  - intros g pre v post resw req elapsed out Hrs Hpre Hv Hm Hout N.
    rewrite (handle_first_match g pre v post) in Hout by done.
    rewrite handle_route_dispatch in Hout by done. cbv zeta in Hout.
    destruct (run_middlewares_events (Adaptive.middlewares g) 0
                (blank (bind_params (paramExtractAlg (Adaptive.Endpoint v))
                          (paramExtractAlg (Adaptive.Endpoint v)) ∅)) resw req)
      as [Hlen Hev].
    destruct (Adaptive.run_middlewares _ _ _ _ _) as [[rb w] evs].
    destruct (Adaptive.optimize _ _ _ _); [|done]. injection Hout as <-.
    simpl in *. fold N in Hlen, Hev. split; [|split].
    + rewrite length_app, Hlen. simpl. lia.
    + intros j Hj. destruct (Hev j Hj) as [rbj Hrbj].
      exists rbj. by rewrite lookup_app_l by lia.
    + exists rb. rewrite lookup_app_r by lia.
      by replace (N - length evs)%nat with 0%nat by lia.
  - intros g pre v post resw req Hrs Hpre Hv Hm N out. subst out.
    rewrite (plain_handle_first_match g pre v post) by done.
    rewrite plain_handle_route_dispatch by done. cbv zeta.
    destruct (plain_run_middlewares_events (Plain.middlewares g) 0
                (blank' (bind_params (paramExtractAlg (Plain.Endpoint v))
                           (paramExtractAlg (Plain.Endpoint v)) ∅) false) resw req)
      as [Hlen Hev].
    destruct (Plain.run_middlewares _ _ _ _ _) as [[rb w] evs].
    simpl in *. fold N in Hlen, Hev. split; [|split].
    + rewrite length_app, Hlen. simpl. lia.
    + intros j Hj. destruct (Hev j Hj) as [rbj Hrbj].
      exists rbj. by rewrite lookup_app_l by lia.
    + eexists. rewrite lookup_app_r by lia.
      by replace (N - length evs)%nat with 0%nat by lia.
Qed.

Lemma middlewares_run_once_in_order_before_the_handler_witness :
  Plain.trace
    (Plain.handle (Plain.AddMiddleware (tag' "b")
                     (Plain.AddMiddleware (tag' "a") (echo_app' keep')))
       http.fresh (POST "/api/echo" "")) !! 1%nat
  = Some (Plain.CallMiddleware 1
            {| Plain.JsonData := ""; Plain.Params := ∅;
               Plain.Claims := {[ "a" := "seen" ]}; Plain.ResponseW := false |}).
Proof.
  destruct middlewares_run_once_in_order_before_the_handler as [_ HP].
  destruct (HP (Plain.AddMiddleware (tag' "b")
                  (Plain.AddMiddleware (tag' "a") (echo_app' keep')))
              [] (Plain.Build_RouteInfo "/api/echo" post false keep') []
              http.fresh (POST "/api/echo" "")) as (_ & Hev & _).
  - reflexivity.
  - constructor.
  - reflexivity.
  - reflexivity.
  - destruct (Hev 1%nat) as [rb Hrb]; [simpl; lia|].
    rewrite Hrb. vm_compute in Hrb. injection Hrb as <-. reflexivity.
Defined.

(** X8.  A middleware added with [AddMiddleware] runs after all the earlier
    ones, on the context and the writer they left behind, and what it
    returns is what the chain returns.  The routes and the counters are
    left alone.  Both variants. *)
Theorem AddMiddleware_appends_to_the_chain :
  (∀ (f : Adaptive.MiddlewareFunc) (g : Adaptive.Globals) rb w req,
     Adaptive.run_middlewares
       (Adaptive.middlewares (Adaptive.AddMiddleware f g)) 0 rb w req
     = (let '(rb1, w1, evs) :=
          Adaptive.run_middlewares (Adaptive.middlewares g) 0 rb w req in
        let '(rb2, w2) := f rb1 w1 req in
        (rb2, w2,
         evs ++ [Adaptive.CallMiddleware (length (Adaptive.middlewares g)) rb1]))
     ∧ Adaptive.routes (Adaptive.AddMiddleware f g) = Adaptive.routes g
     ∧ Adaptive.totalRequest (Adaptive.AddMiddleware f g) = Adaptive.totalRequest g
     ∧ Adaptive.avarageResMs (Adaptive.AddMiddleware f g) = Adaptive.avarageResMs g) ∧
  (∀ (f : Plain.MiddlewareFunc) (g : Plain.Globals) rb w req,
     Plain.run_middlewares (Plain.middlewares (Plain.AddMiddleware f g)) 0 rb w req
     = (let '(rb1, w1, evs) :=
          Plain.run_middlewares (Plain.middlewares g) 0 rb w req in
        let '(rb2, w2) := f rb1 w1 req in
        (rb2, w2,
         evs ++ [Plain.CallMiddleware (length (Plain.middlewares g)) rb1]))
     ∧ Plain.routes (Plain.AddMiddleware f g) = Plain.routes g).
Proof.
  split.
  - intros f g rb w req. split; [|done]. simpl.
    rewrite run_middlewares_app.
    destruct (Adaptive.run_middlewares _ _ _ _ _) as [[rb1 w1] evs]. simpl.
    by destruct (f rb1 w1 req).
  - intros f g rb w req. split; [|done]. simpl.
    rewrite plain_run_middlewares_app.
    destruct (Plain.run_middlewares _ _ _ _ _) as [[rb1 w1] evs]. simpl.
    by destruct (f rb1 w1 req).
Qed.

(** ** Registration *)

Section adaptive_registration.
Import Adaptive.

Lemma optimize_counters_only (g g' : Globals) i i' v v' elapsed :
  totalRequest g = totalRequest g' → avarageResMs g = avarageResMs g' →
  resetAt g = resetAt g' → startOptimizeAt g = startOptimizeAt g' →
  Mode v = Mode v' →
  (λ x, (totalRequest x, avarageResMs x)) <$> optimize g i v elapsed
  = (λ x, (totalRequest x, avarageResMs x)) <$> optimize g' i' v' elapsed.
Proof.
  intros Ht Ha HR Hs Hm. unfold optimize.
  rewrite <- Ht, <- Ha, <- HR, <- Hm.
  destruct ((totalRequest g =? resetAt g) || (avarageResMs g =? resetAt g));
    simpl; rewrite <- ?Hs, <- ?Ht, <- ?Ha;
    destruct (_ && _ && negb _); simpl; rewrite <- ?Ht, <- ?Ha;
    try done;
    by destruct (div64 elapsed (wrap64 (totalRequest g + 1))).
Qed.

Lemma handle_route_observable (g g' : Globals) i v v' resw req elapsed :
  middlewares g = middlewares g' →
  totalRequest g = totalRequest g' → avarageResMs g = avarageResMs g' →
  resetAt g = resetAt g' → startOptimizeAt g = startOptimizeAt g' →
  same_but_auth v v' →
  observable <$> handle_route g i v resw req elapsed
  = observable <$> handle_route g' i v' resw req elapsed.
Proof.
  intros Hmid Ht Ha HR Hs (Hmode & Hend & Hmeth & Hh). unfold handle_route.
  rewrite <- Hmeth, <- Hend, <- Hmode, <- Hh, <- Hmid.
  destruct (negb _).
  { simpl. unfold observable. simpl. by rewrite Ht, Ha. }
  destruct (extractParams _ _) as [params [e|]].
  { simpl. unfold observable. simpl. by rewrite Ht, Ha. }
  destruct (run_middlewares _ _ _ _ _) as [[rb w] evs].
  pose proof (optimize_counters_only g g' i i v v' elapsed Ht Ha HR Hs Hmode)
    as Hopt.
  destruct (Bool.eqb (Mode v) Async);
    destruct (optimize g i v elapsed), (optimize g' i v' elapsed);
    simpl in *; try done; injection Hopt as Ht' Ha';
    unfold observable; simpl; by rewrite Ht', Ha'.
Qed.

Lemma handle_routes_observable (g g' : Globals) rs rs' resw req elapsed :
  middlewares g = middlewares g' →
  totalRequest g = totalRequest g' → avarageResMs g = avarageResMs g' →
  resetAt g = resetAt g' → startOptimizeAt g = startOptimizeAt g' →
  Forall2 same_but_auth rs rs' →
  ∀ i,
  observable <$> handle_routes g rs i resw req elapsed
  = observable <$> handle_routes g' rs' i resw req elapsed.
Proof.
  intros Hmid Ht Ha HR Hs Hrs.
  induction Hrs as [|v v' rs rs' Hv Hrs IH]; intros i; simpl.
  - unfold observable. simpl. by rewrite Ht, Ha.
  - destruct Hv as (Hmode & Hend & Hmeth & Hh). rewrite <- Hend.
    destruct (String.eqb _ _); [|apply IH].
    by apply handle_route_observable.
Qed.

Lemma same_but_auth_refl (v : RouteInfo) : same_but_auth v v.
Proof. by repeat split. Qed.

End adaptive_registration.

Section plain_registration.
Import Plain.

Lemma plain_routes_cases (rs : list RouteInfo) (path : string) :
  Forall (λ u, Endpoint u ≠ path) rs
  ∨ ∃ pre v post, rs = pre ++ v :: post
      ∧ Forall (λ u, Endpoint u ≠ path) pre ∧ Endpoint v = path.
Proof.
  induction rs as [|u rs IH]; [by left|].
  destruct (decide (Endpoint u = path)) as [E|E].
  - right. by exists [], u, rs.
  - destruct IH as [IH|(pre & v & post & -> & Hpre & Hv)].
    + left. by constructor.
    + right. exists (u :: pre), v, post. split; [done|]. split; [|done].
      by constructor.
Qed.

Lemma plain_handle_route_congr (g g' : Globals) i v v' resw req :
  middlewares g = middlewares g' → same_but_auth' v v' →
  handle_route g i v resw req = handle_route g' i v' resw req.
Proof.
  intros Hmid (Hend & Hmeth & Hh). unfold handle_route.
  by rewrite <- Hmeth, <- Hend, <- Hh, <- Hmid.
Qed.

Lemma plain_handle_routes_congr (g g' : Globals) rs rs' resw req :
  middlewares g = middlewares g' → Forall2 same_but_auth' rs rs' →
  ∀ i, handle_routes g rs i resw req = handle_routes g' rs' i resw req.
Proof.
  intros Hmid Hrs.
  induction Hrs as [|v v' rs rs' Hv Hrs IH]; intros i; simpl; [done|].
  destruct Hv as (Hend & Hmeth & Hh). rewrite <- Hend.
  destruct (String.eqb _ _); [|apply IH].
  by apply plain_handle_route_congr.
Qed.

End plain_registration.

(** X9.  A route registered on a path that no earlier route has is reachable:
    a request for the prefix followed by that path, with the method of the
    registration, ends in the call (or the launch) of the registered
    function, at the new route's index.  Both variants; [MapGet],
    [MapPost], [MapPut] and [MapDelete] are [map_route] at the four
    method names. *)
Theorem registered_route_is_dispatched :
  (∀ (g : Adaptive.Globals) m mode path auth f resw (req : http.Request)
      elapsed out,
     Forall (λ u, Adaptive.Endpoint u ≠ Adaptive.RoutePrefix g +:+ path)
       (Adaptive.routes g) →
     http.URL_Path req = Adaptive.RoutePrefix g +:+ path →
     http.Method req = m →
     Adaptive.handle (Adaptive.map_route m mode path auth f g) resw req elapsed
       = Some out →
     ∃ rb, last (Adaptive.trace out)
           = Some (if mode then Adaptive.GoHandler (length (Adaptive.routes g)) rb
                   else Adaptive.CallHandler (length (Adaptive.routes g)) rb)
       ∧ Adaptive.context out = if mode then None else Some (f rb)) ∧
  (∀ (g : Plain.Globals) m path auth f resw (req : http.Request),
     Forall (λ u, Plain.Endpoint u ≠ Plain.RoutePrefix g +:+ path)
       (Plain.routes g) →
     http.URL_Path req = Plain.RoutePrefix g +:+ path →
     http.Method req = m →
     let out := Plain.handle (Plain.map_route m path auth f g) resw req in
     ∃ rb w, last (Plain.trace out)
             = Some (Plain.CallHandler (length (Plain.routes g)) rb)
       ∧ Plain.context out = Some (f rb w).1
       ∧ Plain.resw out = (f rb w).2).
Proof.
  split.
  - intros g m mode path auth f resw req elapsed out Hfree Hpath Hm Hout.
    rewrite (handle_first_match _ (Adaptive.routes g)
               (Adaptive.Build_RouteInfo mode (Adaptive.RoutePrefix g +:+ path)
                  m auth f) []) in Hout; [|done|by rewrite Hpath|done].
    rewrite handle_route_dispatch in Hout by done. cbv zeta in Hout.
    destruct (Adaptive.run_middlewares _ _ _ _ _) as [[rb w] evs].
    destruct (Adaptive.optimize _ _ _ _); [|done]. injection Hout as <-.
    exists rb. simpl. by rewrite last_snoc.
  - intros g m path auth f resw req Hfree Hpath Hm out. subst out.
    rewrite (plain_handle_first_match _ (Plain.routes g)
               (Plain.Build_RouteInfo (Plain.RoutePrefix g +:+ path) m auth f) []);
      [|done|by rewrite Hpath|done].
    rewrite plain_handle_route_dispatch by done. cbv zeta.
    destruct (Plain.run_middlewares _ _ _ _ _) as [[rb w] evs].
    eexists _, w. simpl. by rewrite last_snoc.
Qed.

Lemma registered_route_is_dispatched_witness :
  ∃ rb, last (Adaptive.trace
                {| Adaptive.globals :=
                     Adaptive.set_counters 9 1
                       (Adaptive.MapPut Adaptive.Async "/jobs" UseAuth keep
                          (users_app Adaptive.Sync keep));
                   Adaptive.resw := http.fresh;
                   Adaptive.trace := [Adaptive.GoHandler 1 (blank ∅)];
                   Adaptive.context := None |})
        = Some (Adaptive.GoHandler 1 rb)
    ∧ None = (None : option Adaptive.RequestBody).
Proof.
  destruct registered_route_is_dispatched as [HA _].
  apply (HA (users_app Adaptive.Sync keep) put Adaptive.Async "/jobs" UseAuth
            keep http.fresh
            {| http.Method := "PUT"; http.URL_Path := "/api/jobs";
               http.Body := "" |} 9).
  - repeat constructor. discriminate.
  - reflexivity.
  - reflexivity.
  - vm_compute. reflexivity.
Defined.

(** X10.  Registration never takes a path away from an earlier route: when some
    route already has the request path as its endpoint, registering
    another route, on any path and method, changes nothing a caller can
    see of the handling of that request.  Both variants. *)
Theorem registration_does_not_disturb_earlier_routes :
  (∀ (g : Adaptive.Globals) m mode path auth f resw (req : http.Request) elapsed,
     Exists (λ u, Adaptive.Endpoint u = http.URL_Path req) (Adaptive.routes g) →
     observable <$>
       Adaptive.handle (Adaptive.map_route m mode path auth f g) resw req elapsed
     = observable <$> Adaptive.handle g resw req elapsed) ∧
  (∀ (g : Plain.Globals) m path auth f resw (req : http.Request),
     Exists (λ u, Plain.Endpoint u = http.URL_Path req) (Plain.routes g) →
     Plain.handle (Plain.map_route m path auth f g) resw req
     = Plain.handle g resw req).
Proof.
  split.
  - intros g m mode path auth f resw req elapsed Hex.
    destruct (routes_cases (Adaptive.routes g) (http.URL_Path req))
      as [Hall|(pre & v & post & Hrs & Hpre & Hv)].
    { apply Exists_exists in Hex as (u & Hu & Hend).
      by apply (proj1 (Forall_forall _ _) Hall) in Hu. }
    rewrite (handle_first_match g pre v post) by done.
    rewrite (handle_first_match _ pre v
               (post ++ [Adaptive.Build_RouteInfo mode
                           (Adaptive.RoutePrefix g +:+ path) m auth f]));
      [|by simpl; rewrite Hrs, <- app_assoc|done|done].
    apply handle_route_observable; try done; apply same_but_auth_refl.
  - intros g m path auth f resw req Hex.
    destruct (plain_routes_cases (Plain.routes g) (http.URL_Path req))
      as [Hall|(pre & v & post & Hrs & Hpre & Hv)].
    { apply Exists_exists in Hex as (u & Hu & Hend).
      by apply (proj1 (Forall_forall _ _) Hall) in Hu. }
    rewrite (plain_handle_first_match g pre v post) by done.
    rewrite (plain_handle_first_match _ pre v
               (post ++ [Plain.Build_RouteInfo
                           (Plain.RoutePrefix g +:+ path) m auth f]));
      [|by simpl; rewrite Hrs, <- app_assoc|done|done].
    by apply plain_handle_route_congr.
Qed.

Lemma registration_does_not_disturb_earlier_routes_witness :
  Plain.handle (Plain.MapDelete "/users/{id}" UseAuth keep' (users_app' keep'))
    http.fresh (GET "/api/users/{id}")
  = Plain.handle (users_app' keep') http.fresh (GET "/api/users/{id}").
Proof.
  destruct registration_does_not_disturb_earlier_routes as [_ HP].
  apply (HP (users_app' keep') delete "/users/{id}" UseAuth keep').
  apply Exists_cons_hd. reflexivity.
Defined.

(** X11.  The flag [AuthRequired] is stored and never read: two route tables
    that differ only in these flags handle every request alike.  Both
    variants. *)
Theorem AuthRequired_is_never_enforced :
  (∀ (g : Adaptive.Globals) rs' resw (req : http.Request) elapsed,
     Forall2 same_but_auth (Adaptive.routes g) rs' →
     observable <$> Adaptive.handle (Adaptive.set_routes rs' g) resw req elapsed
     = observable <$> Adaptive.handle g resw req elapsed) ∧
  (∀ (g : Plain.Globals) rs' resw (req : http.Request),
     Forall2 same_but_auth' (Plain.routes g) rs' →
     Plain.handle {| Plain.RoutePrefix := Plain.RoutePrefix g;
                     Plain.middlewares := Plain.middlewares g;
                     Plain.routes := rs' |} resw req
     = Plain.handle g resw req).
Proof.
  split.
  - intros g rs' resw req elapsed Hrs. unfold Adaptive.handle. symmetry.
    by apply handle_routes_observable.
  - intros g rs' resw req Hrs. unfold Plain.handle. symmetry.
    by apply plain_handle_routes_congr.
Qed.

Lemma AuthRequired_is_never_enforced_witness :
  Plain.handle (Plain.MapGet "/users/{id}" UseAuth keep' Plain.init)
    http.fresh (GET "/api/users/{id}")
  = Plain.handle (users_app' keep') http.fresh (GET "/api/users/{id}").
Proof.
  destruct AuthRequired_is_never_enforced as [_ HP].
  apply (HP (users_app' keep')
            [Plain.Build_RouteInfo "/api/users/{id}" get true keep']).
  repeat constructor.
Defined.

(** ** The counters over the life of the process *)

Section adaptive_counters.
Import Adaptive.

Lemma optimize_safe (g : Globals) i v elapsed :
  0 <= totalRequest g <= resetAt g → 1 <= resetAt g < 2 ^ 63 - 1 →
  ∃ g', optimize g i v elapsed = Some g'
    ∧ 0 <= totalRequest g' <= resetAt g' ∧ resetAt g' = resetAt g.
Proof.
  intros Ht HR. unfold optimize.
  destruct ((totalRequest g =? resetAt g) || (avarageResMs g =? resetAt g))
    eqn:Hreset; simpl.
  - destruct (_ && _ && negb _); simpl; change (wrap64 (0 + 1)) with 1;
      (eexists; split; [reflexivity|]); simpl; lia.
  - apply orb_false_iff in Hreset as [Hne _]. apply Z.eqb_neq in Hne.
    destruct (_ && _ && negb _); simpl;
      rewrite (wrap64_id (totalRequest g + 1)) by lia; unfold div64;
      (destruct (Z.eqb_spec (totalRequest g + 1) 0) as [E|_]; [lia|]);
      (eexists; split; [reflexivity|]); simpl; lia.
Qed.

Lemma handle_safe (g : Globals) resw req elapsed :
  0 <= totalRequest g <= resetAt g → 1 <= resetAt g < 2 ^ 63 - 1 →
  ∃ out, handle g resw req elapsed = Some out
    ∧ 0 <= totalRequest (globals out) <= resetAt (globals out)
    ∧ resetAt (globals out) = resetAt g.
Proof.
  intros Ht HR.
  destruct (handle_globals g resw req elapsed)
    as [Hnf|(pre & v & post & Hrs & Hopt)].
  - rewrite Hnf. eexists. split; [reflexivity|]. simpl. lia.
  - destruct (optimize_safe g (length pre) v elapsed Ht HR)
      as (g' & Hg' & Ht' & HR').
    rewrite Hg' in Hopt.
    destruct (handle g resw req elapsed) as [out|]; [|done].
    injection Hopt as <-. by exists out.
Qed.

(** X12.  Serving never panics: from package variables whose count lies between
    zero and the reset ceiling, as it does at start-up and after any
    registration, every sequence of requests is served to the end, with any
    latencies, and the count stays in that range; the division by the
    count is never a division by zero. *)
Theorem serve_never_divides_by_zero (reqs : list (http.Request * Z)) :
  ∀ g : Globals,
  0 <= totalRequest g <= resetAt g → 1 <= resetAt g < 2 ^ 63 - 1 →
  ∃ g', serve g reqs = Some g'
    ∧ 1 <= resetAt g' < 2 ^ 63 - 1
    ∧ 0 <= totalRequest g' <= resetAt g'.
Proof.
  induction reqs as [|[req elapsed] reqs IH]; intros g Ht HR; simpl.
  - by exists g.
  - destruct (handle_safe g http.fresh req elapsed Ht HR)
      as (out & Hout & Ht' & HR').
    rewrite Hout. apply IH; lia.
Qed.

Lemma serve_never_divides_by_zero_witness :
  ∃ g', serve (work_app Sync)
          [(GET "/api/work", 0); (GET "/api/none", 3);
           (POST "/api/work" "x", 7); (GET "/api/work", 9000000000000000000)]
        = Some g'
    ∧ 1 <= resetAt g' < 2 ^ 63 - 1
    ∧ 0 <= totalRequest g' <= resetAt g'.
Proof.
  apply serve_never_divides_by_zero; vm_compute; split; discriminate || reflexivity.
Defined.

(** X13.  A request that reaches the handler step while a counter stands at the
    reset ceiling starts a new window: both counters are zeroed first, so
    afterwards the count is 1 and the average is the request's own
    latency; with a non-negative threshold the route table is unchanged. *)
Theorem counters_restart_at_the_ceiling (g : Globals) pre v post resw
    (req : http.Request) (elapsed : Z) :
  routes g = pre ++ v :: post →
  Forall (λ u, Endpoint u ≠ http.URL_Path req) pre →
  Endpoint v = http.URL_Path req →
  Method v = http.Method req →
  totalRequest g = resetAt g ∨ avarageResMs g = resetAt g →
  0 <= startOptimizeAt g →
  - 2 ^ 63 <= elapsed < 2 ^ 63 →
  ∃ out, handle g resw req elapsed = Some out
    ∧ totalRequest (globals out) = 1
    ∧ avarageResMs (globals out) = elapsed
    ∧ routes (globals out) = routes g.
Proof.
  intros Hrs Hpre Hv Hm Hceil Hs He.
  pose proof (handle_dispatch_globals g pre v post resw req elapsed
                Hrs Hpre Hv Hm) as Hopt.
  assert (Hg' : optimize g (length pre) v elapsed
                = Some (set_counters elapsed 1 g)).
  { unfold optimize.
    assert ((totalRequest g =? resetAt g) || (avarageResMs g =? resetAt g)
            = true) as ->.
    { apply orb_true_iff. destruct Hceil as [E|E]; [left|right];
        by apply Z.eqb_eq. }
    simpl. destruct (Z.gtb_spec 0 (startOptimizeAt g)) as [E|_]; [lia|].
    simpl. change (wrap64 (0 + 1)) with 1.
    rewrite Z.quot_1_r, Z.add_0_l, !(wrap64_id elapsed) by lia.
    reflexivity. }
  rewrite Hg' in Hopt.
  destruct (handle g resw req elapsed) as [out|]; [|done].
  injection Hopt as Hout. exists out. by rewrite Hout.
Qed.

Lemma counters_restart_at_the_ceiling_witness :
  ∃ out, handle (set_counters 40 (resetAt init) (work_app Sync)) http.fresh
           (GET "/api/work") 12 = Some out
    ∧ totalRequest (globals out) = 1
    ∧ avarageResMs (globals out) = 12
    ∧ routes (globals out)
      = routes (set_counters 40 (resetAt init) (work_app Sync)).
Proof.
  apply (counters_restart_at_the_ceiling
           (set_counters 40 (resetAt init) (work_app Sync)) []
           (Build_RouteInfo Sync "/api/work" get false keep) []).
  - reflexivity.
  - constructor.
  - reflexivity.
  - reflexivity.
  - left. reflexivity.
  - vm_compute. discriminate.
  - vm_compute. split; [discriminate | reflexivity].
Defined.

Lemma handle_keeps_the_table (g : Globals) resw req elapsed out :
  handle g resw req elapsed = Some out →
  length (routes (globals out)) = length (routes g)
  ∧ (∀ j u, routes g !! j = Some u →
       ∃ u', routes (globals out) !! j = Some u' ∧ same_but_mode u u')
  ∧ middlewares (globals out) = middlewares g
  ∧ RoutePrefix (globals out) = RoutePrefix g
  ∧ resetAt (globals out) = resetAt g
  ∧ startOptimizeAt (globals out) = startOptimizeAt g.
Proof.
  intros Hout.
  destruct (handle_globals g resw req elapsed)
    as [Hnf|(pre & v & post & Hrs & Hopt)].
  - rewrite Hnf in Hout. injection Hout as <-. simpl.
    repeat split; try done. intros j u Hj. exists u. by repeat split.
  - rewrite Hout in Hopt. simpl in Hopt. symmetry in Hopt.
    apply optimize_routes in Hopt as ([Hr|Hr] & Hmid & Hpre & HR & Hs);
      rewrite Hr; repeat split; try done.
    + intros j u Hj. exists u. by repeat split.
    + apply length_insert.
    + intros j u Hj. destruct (decide (j = length pre)) as [->|Hne].
      * exists (set_Mode Async v).
        rewrite list_lookup_insert_eq by (by eapply lookup_lt_Some).
        split; [done|].
        rewrite Hrs, list_lookup_middle in Hj by done.
        injection Hj as <-. by repeat split.
      * exists u. rewrite list_lookup_insert_ne by done. by repeat split.
Qed.

(** X14.  Serving changes nothing of a route but its mode: after any sequence of
    requests the table has the same length and every route has kept its
    endpoint, method, auth flag and handler; the middleware list, the
    prefix, the reset ceiling and the threshold are as they were. *)
Theorem serve_keeps_the_table (reqs : list (http.Request * Z)) :
  ∀ g g' : Globals,
  serve g reqs = Some g' →
  length (routes g') = length (routes g)
  ∧ (∀ j u, routes g !! j = Some u →
       ∃ u', routes g' !! j = Some u' ∧ same_but_mode u u')
  ∧ middlewares g' = middlewares g
  ∧ RoutePrefix g' = RoutePrefix g
  ∧ resetAt g' = resetAt g
  ∧ startOptimizeAt g' = startOptimizeAt g.
Proof.
  induction reqs as [|[req elapsed] reqs IH]; intros g g' Hs; simpl in Hs.
  - injection Hs as <-. repeat split; try done.
    intros j u Hj. exists u. by repeat split.
  - destruct (handle g http.fresh req elapsed) as [out|] eqn:Hout; [|done].
    apply handle_keeps_the_table in Hout
      as (Hl1 & Hr1 & Hm1 & Hp1 & HR1 & Hs1).
    apply IH in Hs as (Hl2 & Hr2 & Hm2 & Hp2 & HR2 & Hs2).
    repeat split; try congruence.
    intros j u Hj. destruct (Hr1 j u Hj) as (u1 & Hj1 & H1 & H2 & H3 & H4).
    destruct (Hr2 j u1 Hj1) as (u2 & Hj2 & H1' & H2' & H3' & H4').
    exists u2. repeat split; congruence.
Qed.

Lemma serve_keeps_the_table_witness :
  ∃ g', serve (work_app Sync) (map (pair (GET "/api/work")) [1; 1; 1; 1; 1; 1; 9])
        = Some g'
    ∧ length (routes g') = length (routes (work_app Sync))
    ∧ Endpoint <$> routes g' !! 0%nat = Some "/api/work"
    ∧ Mode <$> routes g' !! 0%nat = Some Async.
Proof.
  eexists. split; [vm_compute; reflexivity|].
  destruct (serve_keeps_the_table
              (map (pair (GET "/api/work")) [1; 1; 1; 1; 1; 1; 9])
              (work_app Sync) _ ltac:(vm_compute; reflexivity))
    as (Hlen & _).
  split; [exact Hlen|]. split; reflexivity.
Defined.

(** X15.  After [SetOptimizationThreshold n], with the count at zero, none of the
    first [n + 1] requests changes a route's mode, whatever their paths,
    methods and latencies; the same holds for any prefix of them. *)
Theorem no_promotion_within_the_threshold (n : Z) (g : Globals)
    (reqs : list (http.Request * Z)) :
  0 <= n < 2 ^ 63 - 1 → totalRequest g = 0 →
  Z.of_nat (length reqs) <= n + 1 →
  ∃ g', serve (SetOptimizationThreshold n g) reqs = Some g'
    ∧ routes g' = routes g.
Proof.
  intros Hn Ht Hlen.
  destruct (serve_below_threshold reqs (SetOptimizationThreshold n g))
    as (g' & Hg' & Hr'); simpl; [lia..|].
  by exists g'.
Qed.

Lemma no_promotion_within_the_threshold_witness :
  ∃ g', serve (SetOptimizationThreshold 2
                 (MapGet Sync "/work" NoAuth keep init))
          [(GET "/api/work", 1); (GET "/api/work", 500); (GET "/api/work", 900)]
        = Some g'
    ∧ routes g' = routes (MapGet Sync "/work" NoAuth keep init).
Proof.
  apply no_promotion_within_the_threshold.
  - lia.
  - reflexivity.
  - simpl. lia.
Defined.

Lemma serve_not_above_average (pre post : list RouteInfo) (req : http.Request)
    (es : list Z) :
  ∀ (g : Globals) v,
  routes g = pre ++ v :: post →
  Forall (λ u, Endpoint u ≠ http.URL_Path req) pre →
  Endpoint v = http.URL_Path req → Method v = http.Method req →
  resetAt g = resetAt init →
  0 <= totalRequest g → 0 <= avarageResMs g →
  Forall (λ e, 0 <= e <= avarageResMs g ∧ e < 2 ^ 32) es →
  totalRequest g + Z.of_nat (length es) < 2 ^ 30 →
  avarageResMs g + Z.of_nat (length es) * 2 ^ 32 < 2 ^ 62 →
  ∃ g', serve g (map (pair req) es) = Some g' ∧ routes g' = routes g.
Proof.
  induction es as [|e es IH]; intros g v Hrs Hpre Hv Hm HR Ht Ha Hes Hn Hb.
  - by exists g.
  - apply Forall_cons in Hes as [He Hes]. rewrite length_cons in Hn, Hb.
    simpl.
    pose proof (handle_dispatch_globals g pre v post http.fresh req e
                  Hrs Hpre Hv Hm) as Hopt.
    assert (HRv : resetAt g = 9223372036054775807) by (by rewrite HR).
    destruct (optimize_steady g (length pre) v e)
      as (g1 & Hg1 & Ht1 & Ha1 & Hr1); [lia..|].
    pose proof (quot_bounds e (totalRequest g + 1)) as Hq.
    rewrite (wrap64_id (e ÷ _)) in Ha1 by lia.
    rewrite wrap64_id in Ha1 by lia.
    destruct (Z.gtb_spec e (avarageResMs g)) as [E|_]; [lia|].
    rewrite andb_false_r in Hr1. simpl in Hr1.
    rewrite Hg1 in Hopt.
    destruct (handle g http.fresh req e) as [out|]; [|done].
    injection Hopt as Hout. rewrite Hout.
    destruct (optimize_routes _ _ _ _ _ Hg1) as (_ & _ & _ & HR1 & _).
    destruct (IH g1 v) as (g' & Hg' & Hr');
      [congruence|done|done|done|congruence|lia|lia| |lia|lia|].
    { eapply Forall_impl; [exact Hes|]. simpl. intros x Hx. lia. }
    exists g'. split; [done|]. congruence.
Qed.

(** X16.  The running "average" never falls while latencies are non-negative,
    and it starts at the first latency.  So with a non-negative threshold
    and the counters at zero, a route whose requests are never slower than
    the first one is never promoted, however many requests it serves (up to
    2^29 of them, each under 2^32 microseconds). *)
Theorem steady_latency_never_promotes (g : Globals) pre v post
    (req : http.Request) (e1 : Z) (rest : list Z) :
  routes g = pre ++ v :: post →
  Forall (λ u, Endpoint u ≠ http.URL_Path req) pre →
  Endpoint v = http.URL_Path req → Method v = http.Method req →
  resetAt g = resetAt init → 0 <= startOptimizeAt g →
  totalRequest g = 0 → avarageResMs g = 0 →
  0 <= e1 < 2 ^ 32 → Forall (λ e, 0 <= e <= e1) rest →
  Z.of_nat (length rest) < 2 ^ 29 →
  ∃ g', serve g (map (pair req) (e1 :: rest)) = Some g'
    ∧ routes g' = routes g.
Proof.
  intros Hrs Hpre Hv Hm HR Hs Ht Ha He1 Hrest Hlen. simpl.
  pose proof (handle_dispatch_globals g pre v post http.fresh req e1
                Hrs Hpre Hv Hm) as Hopt.
  assert (HRv : resetAt g = 9223372036054775807) by (by rewrite HR).
  destruct (optimize_steady g (length pre) v e1)
    as (g1 & Hg1 & Ht1 & Ha1 & Hr1); [lia..|].
  rewrite Ht, Ha in Ha1. simpl in Ha1.
  rewrite Z.quot_1_r, (wrap64_id e1), Z.add_0_l, (wrap64_id e1) in Ha1 by lia.
  destruct (Z.gtb_spec (totalRequest g) (startOptimizeAt g)) as [E|_]; [lia|].
  simpl in Hr1.
  rewrite Hg1 in Hopt.
  destruct (handle g http.fresh req e1) as [out|]; [|done].
  injection Hopt as Hout. rewrite Hout.
  destruct (optimize_routes _ _ _ _ _ Hg1) as (_ & _ & _ & HR1 & _).
  destruct (serve_not_above_average pre post req rest g1 v)
    as (g' & Hg' & Hr');
    [congruence|done|done|done|congruence|lia|lia| |lia|lia|].
  { eapply Forall_impl; [exact Hrest|]. simpl. intros x Hx. lia. }
  exists g'. split; [done|]. congruence.
Qed.

Lemma steady_latency_never_promotes_witness :
  ∃ g', serve (SetOptimizationThreshold 2 (MapGet Sync "/work" NoAuth keep init))
          (map (pair (GET "/api/work")) [100; 100; 100; 100; 100; 90; 100])
        = Some g'
    ∧ routes g'
      = routes (SetOptimizationThreshold 2 (MapGet Sync "/work" NoAuth keep init)).
Proof.
  apply (steady_latency_never_promotes
           (SetOptimizationThreshold 2 (MapGet Sync "/work" NoAuth keep init))
           [] (Build_RouteInfo Sync "/api/work" get false keep) []
           (GET "/api/work") 100 [100; 100; 100; 100; 90; 100]).
  - reflexivity.
  - constructor.
  - reflexivity.
  - reflexivity.
  - reflexivity.
  - simpl. lia.
  - reflexivity.
  - reflexivity.
  - lia.
  - repeat constructor; lia.
  - simpl. lia.
Defined.

Lemma handle_dispatched_or_not (g : Globals) resw req elapsed :
  handle g resw req elapsed = Some (not_found g resw)
  ∨ ∃ pre v post, routes g = pre ++ v :: post
      ∧ Endpoint v = http.URL_Path req
      ∧ globals <$> handle g resw req elapsed = optimize g (length pre) v elapsed.
Proof.
  destruct (routes_cases (routes g) (http.URL_Path req))
    as [Hall|(pre & v & post & Hrs & Hpre & Hv)].
  - left. by apply handle_no_route.
  - destruct (decide (Method v = http.Method req)) as [Hm|Hm].
    + right. exists pre, v, post. split; [done|]. split; [done|].
      by apply (handle_dispatch_globals g pre v post).
    + left. rewrite (handle_first_match g pre v post) by done.
      by apply handle_route_mismatch.
Qed.

(** X17.  With a non-negative threshold, a request changes the route table only
    if, as it arrives, the count is above the threshold and its latency is
    above the running average. *)
Theorem promotion_only_above_threshold_and_average (g : Globals) resw
    (req : http.Request) (elapsed : Z) (out : Outcome) :
  0 <= startOptimizeAt g →
  handle g resw req elapsed = Some out →
  routes (globals out) ≠ routes g →
  totalRequest g > startOptimizeAt g ∧ elapsed > avarageResMs g.
Proof.
  intros Hs Hout Hne.
  destruct (handle_dispatched_or_not g resw req elapsed)
    as [Hnf|(pre & v & post & Hrs & Hv & Hopt)].
  { rewrite Hnf in Hout. by injection Hout as <-. }
  rewrite Hout in Hopt. simpl in Hopt. symmetry in Hopt.
  unfold optimize in Hopt.
  destruct ((totalRequest g =? resetAt g) || (avarageResMs g =? resetAt g));
    simpl in Hopt.
  - destruct (Z.gtb_spec 0 (startOptimizeAt g)) as [E|_]; [lia|].
    simpl in Hopt. injection Hopt as Hg'. by rewrite <- Hg' in Hne.
  - destruct ((totalRequest g >? startOptimizeAt g)
              && (elapsed >? avarageResMs g)) eqn:Hc.
    + apply andb_prop in Hc as [H1 H2].
      apply Z.gtb_gt in H1, H2. lia.
    + simpl in Hopt. destruct (div64 _ _); [|done].
      injection Hopt as Hg'. by rewrite <- Hg' in Hne.
Qed.

Lemma promotion_only_above_threshold_and_average_witness :
  totalRequest (set_counters 23 6 (work_app Sync))
    > startOptimizeAt (set_counters 23 6 (work_app Sync))
  ∧ 1000 > avarageResMs (set_counters 23 6 (work_app Sync)).
Proof.
  apply (promotion_only_above_threshold_and_average
           (set_counters 23 6 (work_app Sync)) http.fresh (GET "/api/work") 1000
           {| globals :=
                set_counters 165 7
                  (set_routes [Build_RouteInfo Async "/api/work" get false keep]
                     (work_app Sync));
              resw := http.fresh;
              trace := [CallHandler 0 (blank ∅)];
              context := Some (blank ∅) |}).
  - vm_compute. discriminate.
  - vm_compute. reflexivity.
  - vm_compute. discriminate.
Defined.

(** X18.  A request never changes a route whose endpoint is not the request
    path: whatever happens to the route it is dispatched to, every route on
    another endpoint is afterwards exactly as it was. *)
Theorem routes_on_other_endpoints_are_untouched (g : Globals) resw
    (req : http.Request) (elapsed : Z) (out : Outcome) (j : nat) (u : RouteInfo) :
  handle g resw req elapsed = Some out →
  routes g !! j = Some u → Endpoint u ≠ http.URL_Path req →
  routes (globals out) !! j = Some u.
Proof.
  intros Hout Hj Hu.
  destruct (handle_dispatched_or_not g resw req elapsed)
    as [Hnf|(pre & v & post & Hrs & Hv & Hopt)].
  { rewrite Hnf in Hout. by injection Hout as <-. }
  rewrite Hout in Hopt. simpl in Hopt. symmetry in Hopt.
  apply optimize_routes in Hopt as ([Hr|Hr] & _); rewrite Hr; [done|].
  rewrite list_lookup_insert_ne; [done|].
  intros <-. rewrite Hrs, list_lookup_middle in Hj by done.
  injection Hj as <-. done.
Qed.

Lemma routes_on_other_endpoints_are_untouched_witness :
  routes (set_counters 165 7
            (set_routes [Build_RouteInfo Sync "/api/slow" get false keep;
                         Build_RouteInfo Async "/api/work" get false keep]
               (work_app Sync))) !! 0%nat
  = Some (Build_RouteInfo Sync "/api/slow" get false keep).
Proof.
  apply (routes_on_other_endpoints_are_untouched
           (set_counters 23 6
              (set_routes [Build_RouteInfo Sync "/api/slow" get false keep;
                           Build_RouteInfo Sync "/api/work" get false keep]
                 (work_app Sync)))
           http.fresh (GET "/api/work") 1000
           {| globals :=
                set_counters 165 7
                  (set_routes [Build_RouteInfo Sync "/api/slow" get false keep;
                               Build_RouteInfo Async "/api/work" get false keep]
                     (work_app Sync));
              resw := http.fresh;
              trace := [CallHandler 1 (blank ∅)];
              context := Some (blank ∅) |}).
  - vm_compute. reflexivity.
  - reflexivity.
  - discriminate.
Defined.

End adaptive_counters.
